(** * Warming-threshold timing: the CMIP6 notebook's threshold-crossing cells

    A shallow embedding of the cells of
    [notebooks/2_global_warming_thresholds_impacts/
     cmip6_historical_ssp_gmtas_calculate_warming_thresholds_timing.ipynb]
    that smooth each model's annual global-mean anomaly with a centered
    rolling mean, find the first year at which the smoothed anomaly is at or
    above each warming threshold, tabulate the years and summarise them.

    Conventions of the embedding.
    - Anomalies and thresholds are rationals ([Q]): floating-point rounding is
      not modelled, and the annual series holds finite numbers.  The "no
      value" (NaN) entries that the rolling mean produces are [None].
    - A one-dimensional DataArray over the [year] coordinate is the list of
      its (year, value) pairs, in coordinate order.
    - A Python exception is the left summand of [result]; the notebook's
      global namespace (the target of [vars()[...]]) is a [gmap] from
      variable names to lists of years.  The loop variables ([temp],
      [model], [annual], [smoothed], ...) are assigned in every iteration
      before they are read and are left out of the namespace. *)

From Stdlib Require Import ZArith QArith Qround String Ascii Lia Lqa.
From stdpp Require Import gmap strings list fin_maps sorting.

Local Open Scope Z_scope.
Local Open Scope nat_scope.

(** ** Exceptions *)

Inductive exn : Set :=
| ValueError   (* numpy/xarray: reduction of an empty array, bad window, bad shape *)
| KeyError.    (* a global name that is not bound *)

Definition result (A : Type) : Type := (exn + A)%type.

(** ** Rational sums and means *)

Definition Qsum (l : list Q) : Q := foldr Qplus 0%Q l.

Definition Qmean (l : list Q) : Q := (Qsum l / inject_Z (Z.of_nat (length l)))%Q.

(** ** [annual.rolling(year=W, center=True).mean()]

    xarray labels the window of width [W] at the position [W // 2] from its
    left end: the window of position [i] covers the positions
    [i - W//2 .. i - W//2 + W - 1].  With the default [min_periods] (the
    window width) the mean is a number only where the whole window lies within
    the series, and NaN elsewhere.  A window width of zero is refused.
    This is the behaviour xarray documents (and matches pandas), and what
    its own reduction computes; the bottleneck back end is taken up below. *)

Definition in_bounds (W N i : nat) : bool :=
  (W / 2 <=? i) && (i - W / 2 + W <=? N).

Definition window (W : nat) (xs : list Q) (i : nat) : option (list Q) :=
  if in_bounds W (length xs) i then Some (take W (drop (i - W / 2) xs)) else None.

Definition rolling_mean (W : nat) (annual : list (Z * Q))
  : result (list (Z * option Q)) :=
  if W =? 0 then inl ValueError
  else inr (imap (fun i yv => (yv.1, Qmean <$> window W (annual.*2) i)) annual).

(** *** The bottleneck back end

    Where the bottleneck package is installed, xarray hands the rolling mean
    of a one-dimensional array to [bottleneck.move_mean].  For a centered
    window it first pads the array at its end with [-shift] NaN entries,
    [shift = (-W // 2) + 1] (the floor division is that of [-W]), and shifts
    the result back.  [move_mean] refuses a window wider than the array it is
    given (ValueError: the moving window must be between 1 and its length);
    where it accepts the window the entries are those of [rolling_mean], the
    padding being NaN. *)

Definition bottleneck_pad (W : nat) : nat := (W + 1) / 2 - 1.

Definition rolling_mean_with (bottleneck : bool) (W : nat)
    (annual : list (Z * Q)) : result (list (Z * option Q)) :=
  if bottleneck && (length annual + bottleneck_pad W <? W)
  then inl ValueError
  else rolling_mean W annual.

(** ** [smoothed.year.where(smoothed >= temp, drop=True).year.min().item()]

    [where(..., drop=True)] keeps the year labels of the positions whose
    smoothed value compares [>= temp]; a comparison with NaN is false.  The
    minimum of the remaining labels is taken; numpy refuses to reduce an empty
    array ("zero-size array to reduction operation minimum which has no
    identity"). *)

Definition reaches (temp : Q) (v : option Q) : bool :=
  match v with
  | Some m => Qle_bool temp m
  | None => false
  end.

Definition where_drop (smoothed : list (Z * option Q)) (temp : Q) : list Z :=
  (filter (fun yv => reaches temp yv.2 = true) smoothed).*1.

Definition year_min (years : list Z) : result Z :=
  match years with
  | [] => inl ValueError
  | y :: ys => inr (foldl Z.min y ys)
  end.

Definition year_temp_smoothed (smoothed : list (Z * option Q)) (temp : Q)
  : result Z :=
  year_min (where_drop smoothed temp).

(** The body of the inner loop for one model: smooth, then find the year. *)
Definition first_crossing_year (W : nat) (annual : list (Z * Q)) (temp : Q)
  : result Z :=
  match rolling_mean W annual with
  | inl e => inl e
  | inr smoothed => year_temp_smoothed smoothed temp
  end.


(** ** Python numbers used as thresholds

    A threshold is used twice: numerically in [smoothed >= temp], and through
    [str(temp)] to build the name of the list that collects its years.  A
    Python number is therefore kept with its printed form. *)

Record pynum : Set := PyNum { str : string; num : Q }.

Definition py1 : pynum := PyNum "1" 1.
Definition py1_5 : pynum := PyNum "1.5" (3 # 2).
Definition py2 : pynum := PyNum "2" 2.
Definition py2_5 : pynum := PyNum "2.5" (5 # 2).
Definition py3 : pynum := PyNum "3" 3.

Definition rolling_ave_window : nat := 20.
Definition temps : list pynum := [py1; py1_5; py2; py2_5; py3].

(** ['firstyear_rolling_' + str(temp) + 'C'] *)
Definition firstyear_rolling (temp : pynum) : string :=
  "firstyear_rolling_" +:+ str temp +:+ "C".

(** ** Notebook cells: a state-and-exception monad over the global namespace

    A cell runs from a namespace to a namespace; when it raises, the bindings
    made so far stay in the namespace. *)

Abbreviation namespace := (gmap string (list Z)).

Definition cell (A : Type) : Type := namespace -> namespace * result A.

Definition ret {A} (a : A) : cell A := fun ns => (ns, inr a).

Definition bind {A B} (c : cell A) (k : A -> cell B) : cell B :=
  fun ns =>
    match c ns with
    | (ns', inr a) => k a ns'
    | (ns', inl e) => (ns', inl e)
    end.

Notation "x <~ c ;; k" := (bind c (fun x => k))
  (at level 100, c at next level, right associativity).

Definition lift {A} (r : result A) : cell A := fun ns => (ns, r).

(** [vars()[name]] *)
Definition vars_get (name : string) : cell (list Z) :=
  fun ns =>
    match ns !! name with
    | Some l => (ns, inr l)
    | None => (ns, inl KeyError)
    end.

(** [vars()[name] = l] *)
Definition vars_set (name : string) (l : list Z) : cell unit :=
  fun ns => (<[name := l]> ns, inr tt).

Fixpoint for_each {X} (xs : list X) (body : X -> cell unit) : cell unit :=
  match xs with
  | [] => ret tt
  | x :: xs' => _ <~ body x ;; for_each xs' body
  end.

(** *** The accumulation loop

    The ensemble is the list of the models in the order in which they were
    loaded, each with its annual anomaly series ([cmip6_models] and the rows
    of [cmip6_gmtm_anom], which the loading loop fills in step). *)

Definition append_year (W : nat) (temp : pynum) (annual : list (Z * Q))
  : cell unit :=
  year <~ lift (first_crossing_year W annual (num temp)) ;;
  l <~ vars_get (firstyear_rolling temp) ;;
  vars_set (firstyear_rolling temp) (l ++ [year]).

Definition firstyear_rolling_loop (W : nat) (temps : list pynum)
    (cmip6 : list (string * list (Z * Q))) : cell unit :=
  for_each temps (fun temp =>
    _ <~ vars_set (firstyear_rolling temp) [] ;;
    for_each cmip6 (fun model => append_year W temp model.2)).

(** *** The table cell: [np.vstack(...).T], [pd.DataFrame], [sort_index] *)

Record ndarray : Set := NdArray { shape : nat * nat; elems : list (list Z) }.

(** [np.vstack] of one-dimensional arrays: they must have one length. *)
Definition np_vstack (arrs : list (list Z)) : result ndarray :=
  match arrs with
  | [] => inl ValueError
  | a :: rest =>
      if forallb (fun b => length b =? length a) rest
      then inr (NdArray (length arrs, length a) arrs)
      else inl ValueError
  end.

Definition T (a : ndarray) : ndarray :=
  NdArray ((shape a).2, (shape a).1)
    ((fun j => (fun row => default 0%Z (row !! j)) <$> elems a) <$> seq 0 (shape a).2).

Record DataFrame : Set :=
  { columns : list pynum; rows : list (string * list Z) }.

(** [pd.DataFrame(data, index, columns)]: the labels must fit the shape. *)
Definition pd_DataFrame (data : ndarray) (index : list string)
    (cols : list pynum) : result DataFrame :=
  if (length index =? (shape data).1) && (length cols =? (shape data).2)
  then inr {| columns := cols; rows := zip index (elems data) |}
  else inl ValueError.

Definition index_le (r1 r2 : string * list Z) : Prop :=
  String.le r1.1 r2.1.

#[global] Instance index_le_dec r1 r2 : Decision (index_le r1 r2).
Proof. unfold index_le. apply _. Defined.


(** [df.sort_index()]: the rows in the order of their labels (strings
    compare by code point). *)
Definition sort_index (df : DataFrame) : DataFrame :=
  {| columns := columns df; rows := merge_sort index_le (rows df) |}.

(** The cell ends in [to_csv]: the frame written is the cell's value. *)
Definition table_cell (cmip6_models : list string) (temps : list pynum)
  : cell DataFrame :=
  a1 <~ vars_get (firstyear_rolling py1) ;;
  a2 <~ vars_get (firstyear_rolling py1_5) ;;
  a3 <~ vars_get (firstyear_rolling py2) ;;
  a4 <~ vars_get (firstyear_rolling py2_5) ;;
  a5 <~ vars_get (firstyear_rolling py3) ;;
  stacked <~ lift (np_vstack [a1; a2; a3; a4; a5]) ;;
  df <~ lift (pd_DataFrame (T stacked) cmip6_models temps) ;;
  ret (sort_index df).

(** *** The summary cell: [np.median] and [np.quantile]

    Both sort the years.  The median is the middle element or the mean of the
    two middle ones; the quantile interpolates linearly between the elements
    around the position [(n - 1) * q].  Of an empty array numpy's median is
    NaN and its quantile raises IndexError; both are [None] here, and the
    statements about the summary keep to non-empty lists of years. *)

Definition sorted_years (a : list Z) : list Z := merge_sort Z.le a.

Definition at_index (a : list Z) (i : nat) : Q := inject_Z (default 0%Z (a !! i)).

Definition np_median (a : list Z) : option Q :=
  let s := sorted_years a in
  let n := length s in
  if n =? 0 then None
  else if Nat.even n
       then Some ((at_index s (n / 2 - 1) + at_index s (n / 2)) / 2)%Q
       else Some (at_index s (n / 2)).

Definition np_quantile (a : list Z) (q : Q) : option Q :=
  let s := sorted_years a in
  let n := length s in
  if n =? 0 then None
  else
    let h := (inject_Z (Z.of_nat (n - 1)) * q)%Q in
    let lo := Z.to_nat (Qfloor h) in
    let hi := Nat.min (lo + 1) (n - 1) in
    Some (at_index s lo
          + (h - inject_Z (Z.of_nat lo)) * (at_index s hi - at_index s lo))%Q.

Definition summary_cell (temp : pynum) : cell (option Q * option Q * option Q) :=
  years <~ vars_get (firstyear_rolling temp) ;;
  ret (np_median years, np_quantile years (5 # 100), np_quantile years (95 # 100)).

(** *** Running the cells in order; the run stops at the first exception. *)

Definition export_table (W : nat) (temps : list pynum)
    (cmip6 : list (string * list (Z * Q))) : cell DataFrame :=
  _ <~ firstyear_rolling_loop W temps cmip6 ;;
  table_cell (cmip6.*1) temps.

Definition print_summary (W : nat) (temps : list pynum)
    (cmip6 : list (string * list (Z * Q))) (temp : pynum)
  : cell (option Q * option Q * option Q) :=
  _ <~ firstyear_rolling_loop W temps cmip6 ;;
  summary_cell temp.

(** ** Sample data *)

Definition years_from (y0 : Z) (vs : list Q) : list (Z * Q) :=
  imap (fun i v => ((y0 + Z.of_nat i)%Z, v)) vs.

(** Anomaly rising by one degree a year from 2000. *)
Definition rising : list (Z * Q) :=
  years_from 2000 [0; 1; 2; 3; 4; 5; 6]%Q.

(** Anomaly flat at half a degree, 2000 to 2020. *)
Definition flat : list (Z * Q) :=
  years_from 2000 (replicate 21 (1 # 2)).

(** Years out of order and repeated. *)
Definition shuffled : list (Z * Q) :=
  [(2000%Z, 2%Q); (2000%Z, 2%Q); (1999%Z, 2%Q)].

(** ** What the claims speak of *)

(** The year labels rise strictly (no repeated year, none out of order). *)
Definition years_increasing (annual : list (Z * Q)) : Prop :=
  Sorted Z.lt (annual.*1).


(** [ws] holds the [W] values of [xs] around position [i], the window lying
    within [xs]: positions [i - W/2] to [i - W/2 + W - 1]. *)
Definition centered_window (W : nat) (xs : list Q) (i : nat) (ws : list Q)
  : Prop :=
  W / 2 <= i /\ length ws = W /\
  forall j, j < W -> ws !! j = xs !! (i - W / 2 + j).

(** Position [i] of the series carries the year [y], its window lies within
    the series and the mean over the window is at least [temp]. *)
Definition crossing_at (W : nat) (annual : list (Z * Q)) (temp : Q)
    (i : nat) (y : Z) : Prop :=
  annual.*1 !! i = Some y /\
  exists ws, centered_window W (annual.*2) i ws /\ (temp <= Qmean ws)%Q.

(** The values rise strictly along the series. *)
Definition strictly_increasing (xs : list Q) : Prop :=
  forall i j a b, i < j -> xs !! i = Some a -> xs !! j = Some b -> (a < b)%Q.


(** The years gathered for one threshold until a model raises, and how the
    inner loop ends. *)
Fixpoint gathered (W : nat) (temp : Q) (cmip6 : list (string * list (Z * Q)))
  : list Z * result unit :=
  match cmip6 with
  | [] => ([], inr tt)
  | model :: rest =>
      match first_crossing_year W model.2 temp with
      | inl e => ([], inl e)
      | inr year =>
          let '(years, r) := gathered W temp rest in (year :: years, r)
      end
  end.

(** The bindings the accumulation loop makes, in order, and how it ends. *)
Fixpoint bindings (W : nat) (temps : list pynum)
    (cmip6 : list (string * list (Z * Q))) : list (string * list Z) * result unit :=
  match temps with
  | [] => ([], inr tt)
  | temp :: rest =>
      let '(years, r) := gathered W (num temp) cmip6 in
      match r with
      | inl e => ([(firstyear_rolling temp, years)], inl e)
      | inr _ =>
          let '(bs, r') := bindings W rest cmip6 in
          ((firstyear_rolling temp, years) :: bs, r')
      end
  end.

(** Making bindings one after the other; a later one replaces an earlier one
    of the same name. *)
Definition rebind (bs : list (string * list Z)) (ns : namespace) : namespace :=
  foldl (fun ns b => <[b.1 := b.2]> ns) ns bs.

(** A cell that only reads the namespace. *)
Definition reads_only {A} (c : cell A) : Prop :=
  forall ns, (c ns).1 = ns.

(** Every model reaches every threshold. *)
Definition all_reach (W : nat) (temps : list pynum)
    (cmip6 : list (string * list (Z * Q))) : Prop :=
  forall temp model, temp ∈ temps -> model ∈ cmip6 ->
    exists year, first_crossing_year W model.2 (num temp) = inr year.

(** The crossing year where there is one. *)
Definition crossing_year (W : nat) (temp : Q) (annual : list (Z * Q)) : Z :=
  match first_crossing_year W annual temp with
  | inr year => year
  | inl _ => 0%Z
  end.


(** Anomaly rising by two degrees a year from 2000. *)
Definition steep : list (Z * Q) :=
  years_from 2000 [0; 2; 4; 6; 8]%Q.

(** Two models that reach every threshold, in the order of loading. *)
Definition loaded : list (string * list (Z * Q)) :=
  [("NorESM2-LM", rising); ("ACCESS-CM2", steep)].

(** Two models, the second of which never reaches one degree. *)
Definition two_models : list (string * list (Z * Q)) :=
  [("A", rising); ("B", flat)].

(** ** From global-mean temperature to anomalies

    [cmip6_gmtm_anom = (cmip6_gmtm
       - cmip6_gmtm.sel(year=slice(1850,1899)).mean(dim='year')
      ).sel(year=slice(1850,2100))], for the row of one model. *)

(** [da.sel(year=slice(lo, hi))].  The year index is the one
    [groupby('time.year')] builds, which rises strictly; on such an index a
    label slice keeps the entries whose year lies in the closed range. *)
Definition sel_years {A} (lo hi : Z) (da : list (Z * A)) : list (Z * A) :=
  filter (fun yv => (lo <= yv.1 <= hi)%Z) da.

(** [.mean(dim='year')]: NaN over no year. *)
Definition mean_year (da : list (Z * Q)) : option Q :=
  match da with
  | [] => None
  | _ => Some (Qmean (da.*2))
  end.

Definition cmip6_gmtm_anom (gmtm : list (Z * Q)) : list (Z * option Q) :=
  let baseline := mean_year (sel_years 1850 1899 gmtm) in
  sel_years 1850 2100
    ((fun yv => (yv.1, (fun b => yv.2 - b)%Q <$> baseline)) <$> gmtm).

(** The entries of a series as numbers, when none of them is NaN. *)
Definition numbers (da : list (Z * option Q)) : option (list (Z * Q)) :=
  mapM (fun yv => (fun v => (yv.1, v)) <$> yv.2) da.

(** ** The area-weighted global mean

    One year of gridded data is a list of latitude rows.  A row is kept with
    its weight [cos(deg2rad(lat))], a number the embedding takes as given,
    and holds one value for each longitude. *)

Definition grid_sum (g : list (list Q)) : Q := Qsum (concat g).

(** [w.broadcast_like(da)] *)
Definition broadcast_weights (da : list (Q * list Q)) : list (list Q) :=
  (fun row : Q * list Q => (fun _ => row.1) <$> row.2) <$> da.

(** [w * da] *)
Definition weighted (da : list (Q * list Q)) : list (list Q) :=
  (fun row : Q * list Q => (fun x => row.1 * x)%Q <$> row.2) <$> da.

(** [(w * da).sum(dim=('lon','lat')) / w.sum(dim=('lon','lat'))] for the
    model data, which has no missing cell.  When the weights sum to zero the
    quotient is not a finite number ([None]). *)
Definition gmt2m (da : list (Q * list Q)) : option Q :=
  if Qeq_bool (grid_sum (broadcast_weights da)) 0 then None
  else Some (grid_sum (weighted da) / grid_sum (broadcast_weights da))%Q.

(** The observations have missing cells (NaN, here [None]); [sum] skips
    them. *)
Definition nansum (g : list (list (option Q))) : Q := Qsum (omap id (concat g)).

(** [w.where(da_ann.notnull())] *)
Definition weights_where_notnull (da : list (Q * list (option Q)))
  : list (list (option Q)) :=
  (fun row : Q * list (option Q) =>
     (fun x : option Q => (fun _ => row.1) <$> x) <$> row.2) <$> da.

(** [w.where(da_ann.notnull()) * da_ann] *)
Definition weighted_where_notnull (da : list (Q * list (option Q)))
  : list (list (option Q)) :=
  (fun row : Q * list (option Q) =>
     (fun x : option Q => Qmult row.1 <$> x) <$> row.2) <$> da.

(** [(w.where(da_ann.notnull()) * da_ann).sum(dim=('lon','lat'))
     / w.where(da_ann.notnull()).sum(dim=('lon','lat'))] *)
Definition gmt2m_noaa (da : list (Q * list (option Q))) : option Q :=
  if Qeq_bool (nansum (weights_where_notnull da)) 0 then None
  else Some (nansum (weighted_where_notnull da)
             / nansum (weights_where_notnull da))%Q.

(** The grid with the missing cells left out of every row. *)
Definition present_cells (da : list (Q * list (option Q))) : list (Q * list Q) :=
  (fun row : Q * list (option Q) => (row.1, omap id row.2)) <$> da.

(** ** Finding the NetCDF file among the links of the directory page *)

(** [s.endswith(suffix)] *)
Fixpoint endswith (s suffix : string) : bool :=
  String.eqb s suffix
  || match s with
     | EmptyString => false
     | String _ s' => endswith s' suffix
     end.

(** The loop over [soup.find_all('a')].  Each anchor gives
    [link.get('href')], which is [None] when the attribute is missing; the
    first one that is not empty and ends in ['.nc'] is kept. *)
Fixpoint find_nc_file (hrefs : list (option string)) : option string :=
  match hrefs with
  | [] => None
  | href :: rest =>
      match href with
      | Some h =>
          if negb (String.eqb h "") && endswith h ".nc" then Some h
          else find_nc_file rest
      | None => find_nc_file rest
      end
  end.

(** [s.split(sep)] for a separator of one character. *)
Fixpoint split (sep : ascii) (s : string) : list string :=
  match s with
  | EmptyString => [EmptyString]
  | String c s' =>
      if Ascii.eqb c sep then EmptyString :: split sep s'
      else match split sep s' with
           | piece :: pieces => String c piece :: pieces
           | [] => [String c EmptyString]
           end
  end.

Inductive scrape : Set :=
| NoNetCDF                               (* "No NetCDF file found in the directory." *)
| IndexError                             (* [...][-1] on an empty list *)
| Download (nc_url filename : string).   (* the file fetched and the name it is saved under *)

Definition noaa_cell (base_url : string) (hrefs : list (option string)) : scrape :=
  match find_nc_file hrefs with
  | Some nc_file =>
      if negb (String.eqb nc_file "") then
        match last (split "/" nc_file) with
        | Some filename => Download (base_url +:+ nc_file) filename
        | None => IndexError
        end
      else NoNetCDF
  | None => NoNetCDF
  end.

(** The character does not occur in the string. *)
Definition free_of (c : ascii) (s : string) : Prop :=
  c ∉ list_ascii_of_string s.

(** ** Loading the models

    The loop over [datasets_historical] and [datasets_ssp] pairs the datasets
    of one model by their [source_id] attribute, appends the model's name to
    [cmip6_models] and its global-mean series to [cmip6_gmtm].  The datasets
    are of a type [D] with the attribute [source_id]; [gmt2m_of] stands for
    the series computed from a historical and a scenario dataset (conversion
    to Celsius, annual means, concatenation of the two periods, area
    weighting).  [cmip6_gmtm] is [None] while the name is not bound and else
    holds the rows along the [model] dimension. *)

Inductive load_end : Set :=
| Loaded
| NameError.   (* [cmip6_gmtm] read before it was bound *)

Fixpoint match_ssp {D R} (source_id : D -> string) (gmt2m_of : D -> D -> R)
    (hii : nat) (ds_historical : D) (datasets_ssp : list D)
    (st : list string * option (list R))
  : (list string * option (list R)) * load_end :=
  match datasets_ssp with
  | [] => (st, Loaded)
  | ds_ssp :: rest =>
      if String.eqb (source_id ds_ssp) (source_id ds_historical) then
        let cmip6_models := st.1 ++ [source_id ds_ssp] in
        let gmt2m := gmt2m_of ds_historical ds_ssp in
        if hii =? 0 then
          match_ssp source_id gmt2m_of hii ds_historical rest
            (cmip6_models, Some [gmt2m])
        else
          match st.2 with
          | Some cmip6_gmtm =>
              match_ssp source_id gmt2m_of hii ds_historical rest
                (cmip6_models, Some (cmip6_gmtm ++ [gmt2m]))
          | None => ((cmip6_models, None), NameError)
          end
      else match_ssp source_id gmt2m_of hii ds_historical rest st
  end.

Fixpoint load_from {D R} (source_id : D -> string) (gmt2m_of : D -> D -> R)
    (hii : nat) (datasets_historical datasets_ssp : list D)
    (st : list string * option (list R))
  : (list string * option (list R)) * load_end :=
  match datasets_historical with
  | [] => (st, Loaded)
  | ds_historical :: rest =>
      match match_ssp source_id gmt2m_of hii ds_historical datasets_ssp st with
      | (st', Loaded) =>
          load_from source_id gmt2m_of (S hii) rest datasets_ssp st'
      | stopped => stopped
      end
  end.

(** The cell: [cmip6_models = []], then the loops.  [prior] is what
    [cmip6_gmtm] was bound to before the cell ran, if anything. *)
Definition load_models {D R} (source_id : D -> string) (gmt2m_of : D -> D -> R)
    (datasets_historical datasets_ssp : list D) (prior : option (list R))
  : (list string * option (list R)) * load_end :=
  load_from source_id gmt2m_of 0 datasets_historical datasets_ssp ([], prior).

(** The scenario datasets of the model of a historical dataset, and the pairs
    the loops meet, in order. *)
Definition matches {D} (source_id : D -> string) (ds_historical : D)
    (datasets_ssp : list D) : list D :=
  filter (fun ds_ssp => source_id ds_ssp = source_id ds_historical) datasets_ssp.

Definition matching_pairs {D} (source_id : D -> string)
    (datasets_historical datasets_ssp : list D) : list (D * D) :=
  datasets_historical ≫= fun ds_historical =>
    (fun ds_ssp => (ds_historical, ds_ssp))
      <$> matches source_id ds_historical datasets_ssp.


(** * Properties *)

(** ** The minimum of the years kept *)

Lemma foldl_min_le (ys : list Z) (y : Z) :
  (foldl Z.min y ys <= y)%Z /\ forall y', y' ∈ ys -> (foldl Z.min y ys <= y')%Z.
Proof.
  revert y. induction ys as [|a ys IH]; intros y; simpl.
  - split; [lia|]. intros y' Hy'. inversion Hy'.
  - destruct (IH (Z.min y a)) as [H1 H2]. split; [lia|].
    intros y' Hy'. apply elem_of_cons in Hy' as [->|Hy']; [lia|auto].
Qed.

Lemma foldl_min_elem (ys : list Z) (y : Z) : foldl Z.min y ys ∈ y :: ys.
Proof.
  revert y. induction ys as [|a ys IH]; intros y; simpl.
  - apply list_elem_of_here.
  - specialize (IH (Z.min y a)). apply elem_of_cons in IH as [IH|IH].
    + rewrite IH. destruct (Z.min_spec y a) as [[_ ->]|[_ ->]].
      * apply list_elem_of_here.
      * apply list_elem_of_further, list_elem_of_here.
    + do 2 apply list_elem_of_further. exact IH.
Qed.

Lemma year_min_inr (ys : list Z) (y : Z) :
  year_min ys = inr y <-> y ∈ ys /\ forall y', y' ∈ ys -> (y <= y')%Z.
Proof.
  destruct ys as [|a ys]; simpl.
  - split; [discriminate|]. intros [H _]. inversion H.
  - split.
    + intros [= <-]. split; [apply foldl_min_elem|].
      intros y' Hy'. destruct (foldl_min_le ys a) as [H1 H2].
      apply elem_of_cons in Hy' as [->|Hy']; auto.
    + intros [Hin Hmin]. f_equal.
      pose proof (foldl_min_elem ys a) as Hm.
      destruct (foldl_min_le ys a) as [H1 H2].
      assert (foldl Z.min a ys <= y)%Z.
      { apply elem_of_cons in Hin as [->|Hin]; auto. }
      specialize (Hmin _ Hm). lia.
Qed.

Lemma year_min_inl (ys : list Z) (e : exn) :
  year_min ys = inl e <-> ys = [] /\ e = ValueError.
Proof.
  destruct ys as [|a ys]; simpl; split.
  - intros [= <-]. auto.
  - intros [_ ->]. reflexivity.
  - discriminate.
  - intros [[=] _].
Qed.

Lemma elem_of_where_drop (smoothed : list (Z * option Q)) (temp : Q) (y : Z) :
  y ∈ where_drop smoothed temp <->
  exists v, (y, Some v) ∈ smoothed /\ (temp <= v)%Q.
Proof.
  unfold where_drop. rewrite list_elem_of_fmap. split.
  - intros [[y' v] [-> Hin]]. apply list_elem_of_filter in Hin as [Hr Hin].
    simpl in *. destruct v as [v|]; [|discriminate].
    exists v. split; [exact Hin|]. apply Qle_bool_iff. exact Hr.
  - intros (v & Hin & Hle). exists (y, Some v). split; [reflexivity|].
    apply list_elem_of_filter. split; [|exact Hin].
    simpl. apply Qle_bool_iff. exact Hle.
Qed.

(** ** The centered window *)

Lemma in_bounds_true (W N i : nat) :
  in_bounds W N i = true <-> W / 2 <= i /\ i - W / 2 + W <= N.
Proof.
  unfold in_bounds. rewrite andb_true_iff, !Nat.leb_le. reflexivity.
Qed.

Lemma window_centered (W : nat) (xs : list Q) (i : nat) (ws : list Q) :
  window W xs i = Some ws -> centered_window W xs i ws.
Proof.
  unfold window. destruct (in_bounds W (length xs) i) eqn:Hb; [|discriminate].
  apply in_bounds_true in Hb as [Hlo Hhi]. intros [= <-].
  split; [exact Hlo|]. split.
  - rewrite length_take, length_drop.
    change (Nat.divmod W 1 0 1).1 with (W / 2). lia.
  - intros j Hj. rewrite lookup_take_lt by exact Hj. apply lookup_drop.
Qed.

Lemma centered_window_bounds (W : nat) (xs : list Q) (i : nat) (ws : list Q) :
  0 < W -> centered_window W xs i ws ->
  W / 2 <= i /\ i - W / 2 + W <= length xs.
Proof.
  intros HW (Hlo & Hlen & Hws). split; [exact Hlo|].
  assert (is_Some (ws !! (W - 1))) as Hs by (apply lookup_lt_is_Some; lia).
  rewrite Hws in Hs by lia. apply lookup_lt_is_Some in Hs. lia.
Qed.

Lemma centered_window_unique (W : nat) (xs : list Q) (i : nat) (ws : list Q) :
  0 < W -> centered_window W xs i ws -> window W xs i = Some ws.
Proof.
  intros HW Hc. destruct (centered_window_bounds _ _ _ _ HW Hc) as [Hlo Hhi].
  destruct Hc as (_ & Hlen & Hws).
  unfold window. rewrite (proj2 (in_bounds_true _ _ _)) by auto.
  f_equal. apply list_eq. intros j. destruct (decide (j < W)) as [Hj|Hj].
  - rewrite lookup_take_lt by exact Hj. rewrite lookup_drop. symmetry. auto.
  - rewrite lookup_take_ge by lia. symmetry. apply lookup_ge_None. lia.
Qed.

Lemma window_None (W : nat) (xs : list Q) (i : nat) :
  window W xs i = None <-> ~ (W / 2 <= i /\ i - W / 2 + W <= length xs).
Proof.
  unfold window. rewrite <- in_bounds_true.
  destruct (in_bounds W (length xs) i); split; try discriminate; auto.
  intros H. exfalso. auto.
Qed.

(** ** The smoothed series, position by position *)

Lemma rolling_mean_inr (W : nat) (annual : list (Z * Q)) :
  0 < W ->
  rolling_mean W annual =
    inr (imap (fun i yv => (yv.1, Qmean <$> window W (annual.*2) i)) annual).
Proof.
  intros HW. unfold rolling_mean. destruct (Nat.eqb_spec W 0); [lia|reflexivity].
Qed.

Lemma rolling_mean_zero (annual : list (Z * Q)) :
  rolling_mean 0 annual = inl ValueError.
Proof. reflexivity. Qed.

Lemma rolling_mean_lookup (W : nat) (annual : list (Z * Q)) smoothed (i : nat) :
  rolling_mean W annual = inr smoothed ->
  smoothed !! i =
    (fun yv : Z * Q => (yv.1, Qmean <$> window W (annual.*2) i)) <$> annual !! i.
Proof.
  unfold rolling_mean. destruct (W =? 0); [discriminate|].
  intros [= <-]. apply list_lookup_imap.
Qed.

Lemma rolling_mean_crossing (W : nat) (annual : list (Z * Q)) smoothed
    (temp : Q) (y : Z) :
  0 < W -> rolling_mean W annual = inr smoothed ->
  y ∈ where_drop smoothed temp <-> exists i, crossing_at W annual temp i y.
Proof.
  intros HW Hr. rewrite elem_of_where_drop. split.
  - intros (v & Hin & Hle). apply list_elem_of_lookup in Hin as [i Hi].
    rewrite (rolling_mean_lookup _ _ _ i Hr) in Hi.
    destruct (annual !! i) as [[y' x]|] eqn:Ha; [|discriminate].
    simpl in Hi. destruct (window W (annual.*2) i) as [ws|] eqn:Hw; [|discriminate].
    simpl in Hi. injection Hi as -> <-.
    exists i. split.
    + rewrite list_lookup_fmap, Ha. reflexivity.
    + exists ws. split; [apply window_centered; exact Hw|exact Hle].
  - intros (i & Hy & ws & Hc & Hle).
    rewrite list_lookup_fmap in Hy.
    destruct (annual !! i) as [[y' x]|] eqn:Ha; [|discriminate].
    simpl in Hy. injection Hy as ->.
    exists (Qmean ws). split; [|exact Hle].
    apply (list_elem_of_lookup_2 _ i).
    rewrite (rolling_mean_lookup _ _ _ i Hr), Ha. simpl.
    rewrite (centered_window_unique _ _ _ _ HW Hc). reflexivity.
Qed.

Lemma crossing_at_intro (W : nat) (annual : list (Z * Q)) (temp : Q)
    (i : nat) (y : Z) (ws : list Q) :
  annual.*1 !! i = Some y ->
  window W (annual.*2) i = Some ws ->
  Qle_bool temp (Qmean ws) = true ->
  crossing_at W annual temp i y.
Proof.
  intros Hy Hw Hle. split; [exact Hy|]. exists ws.
  split; [apply window_centered; exact Hw|apply Qle_bool_iff; exact Hle].
Qed.

Lemma first_crossing_year_inr (W : nat) (annual : list (Z * Q)) (temp : Q) (y : Z) :
  0 < W ->
  first_crossing_year W annual temp = inr y <->
  (exists i, crossing_at W annual temp i y) /\
  forall i y', crossing_at W annual temp i y' -> (y <= y')%Z.
Proof.
  intros HW. unfold first_crossing_year, year_temp_smoothed.
  pose proof (rolling_mean_inr W annual HW) as Hr. rewrite Hr.
  rewrite year_min_inr, (rolling_mean_crossing _ _ _ _ _ HW Hr).
  split; intros [H1 H2]; (split; [exact H1|]).
  - intros i y' Hc. apply H2.
    apply (rolling_mean_crossing _ _ _ _ _ HW Hr). eauto.
  - intros y' Hy'. apply (rolling_mean_crossing _ _ _ _ _ HW Hr) in Hy' as [i Hi].
    eauto.
Qed.

Lemma first_crossing_year_inl (W : nat) (annual : list (Z * Q)) (temp : Q) (e : exn) :
  0 < W ->
  first_crossing_year W annual temp = inl e <->
  e = ValueError /\ forall i y, ~ crossing_at W annual temp i y.
Proof.
  intros HW. unfold first_crossing_year, year_temp_smoothed.
  pose proof (rolling_mean_inr W annual HW) as Hr. rewrite Hr.
  rewrite year_min_inl. split.
  - intros [Hnil ->]. split; [reflexivity|]. intros i y Hc.
    assert (y ∈ where_drop
              (imap (fun i yv => (yv.1, Qmean <$> window W (annual.*2) i)) annual)
              temp) as Hin
      by (apply (rolling_mean_crossing _ _ _ _ _ HW Hr); eauto).
    rewrite Hnil in Hin. inversion Hin.
  - intros [-> Hno]. split; [|reflexivity].
    destruct (where_drop _ temp) as [|y ys] eqn:Hw; [reflexivity|].
    exfalso.
    assert (y ∈ y :: ys) as Hin by apply list_elem_of_here.
    rewrite <- Hw in Hin.
    apply (rolling_mean_crossing _ _ _ _ _ HW Hr) in Hin as [i Hi].
    exact (Hno _ _ Hi).
Qed.

(** ** First crossing year (C1, C2, C9, C10) *)

(** C1: whenever some year has its centered window within the series and a
    smoothed value of at least the threshold, the crossing year computed from
    the rolling mean is such a year and no such year is smaller. *)
Theorem first_crossing_year_smallest (W : nat) (annual : list (Z * Q)) (temp : Q) :
  0 < W ->
  (exists i y, crossing_at W annual temp i y) ->
  exists y,
    first_crossing_year W annual temp = inr y /\
    (exists i, crossing_at W annual temp i y) /\
    forall i y', crossing_at W annual temp i y' -> (y <= y')%Z.
Proof.
  intros HW (i & y0 & Hc).
  destruct (first_crossing_year W annual temp) as [e|y] eqn:Hf.
  - apply first_crossing_year_inl in Hf as [_ Hno]; [|exact HW].
    destruct (Hno _ _ Hc).
  - exists y. split; [reflexivity|].
    apply first_crossing_year_inr in Hf; [exact Hf|exact HW].
Qed.

Lemma first_crossing_year_smallest_witness :
  exists y,
    first_crossing_year 3 rising 3 = inr y /\
    (exists i, crossing_at 3 rising 3 i y) /\
    forall i y', crossing_at 3 rising 3 i y' -> (y <= y')%Z.
Proof.
  apply (first_crossing_year_smallest 3 rising 3).
  - lia.
  - exists 4, 2004%Z.
    apply (crossing_at_intro 3 rising 3 4 2004 [3; 4; 5]%Q); reflexivity.
Defined.

(** C2, what the claim says fails: the series flat at 0.5 never reaches 1.0
    with a window of 5, and the computation raises. *)
Lemma flat_never_reaches_raises :
  (forall i y, ~ crossing_at 5 flat 1 i y) /\
  first_crossing_year 5 flat 1 = inl ValueError /\
  ~ exists outcome : Z, first_crossing_year 5 flat 1 = inr outcome.
Proof.
  assert (first_crossing_year 5 flat 1 = inl ValueError) as Hf by (vm_compute; reflexivity).
  split; [|split].
  - apply (first_crossing_year_inl 5 flat 1 ValueError); [lia|exact Hf].
  - exact Hf.
  - intros [y Hy]. rewrite Hf in Hy. discriminate.
Qed.

(** C2, amended: when no year with its window within the series has a
    smoothed value of at least the threshold, the computation raises
    [ValueError] (the minimum of an empty array); it yields no year. *)
Theorem first_crossing_year_unreached (W : nat) (annual : list (Z * Q)) (temp : Q) :
  0 < W ->
  (forall i y, ~ crossing_at W annual temp i y) ->
  first_crossing_year W annual temp = inl ValueError.
Proof.
  intros HW Hno. apply first_crossing_year_inl; auto.
Qed.

Lemma first_crossing_year_unreached_witness :
  first_crossing_year 5 flat 1 = inl ValueError.
Proof.
  apply (first_crossing_year_unreached 5 flat 1).
  - lia.
  - apply (first_crossing_year_inl 5 flat 1 ValueError); [lia|].
    vm_compute. reflexivity.
Defined.

(** C9, what the claim says fails: a series with a repeated year and a year
    out of order is not refused; a crossing year is returned. *)
Lemma shuffled_years_not_rejected :
  ~ years_increasing shuffled /\
  first_crossing_year 1 shuffled 1 = inr 1999%Z.
Proof.
  split; [|vm_compute; reflexivity].
  unfold years_increasing. intros H. apply Sorted_inv in H as [_ H].
  simpl in H. apply HdRel_inv in H. lia.
Qed.

(** C9, amended: the year labels are not validated.  For a series whose
    years repeat or are out of order and a window [W > 0], the positions are
    taken in the order of the series: when some position crosses, the year
    returned is the label of a crossing position and the smallest such
    label, and [ValueError] is raised exactly when no position crosses. *)
Theorem unordered_years_accepted (W : nat) (annual : list (Z * Q)) (temp : Q) :
  0 < W ->
  ~ years_increasing annual ->
  ((exists i y, crossing_at W annual temp i y) ->
     exists y0,
       first_crossing_year W annual temp = inr y0 /\
       (exists i, crossing_at W annual temp i y0) /\
       forall i y, crossing_at W annual temp i y -> (y0 <= y)%Z) /\
  ((forall i y, ~ crossing_at W annual temp i y) ->
     first_crossing_year W annual temp = inl ValueError) /\
  (forall e, first_crossing_year W annual temp = inl e ->
     e = ValueError /\ forall i y, ~ crossing_at W annual temp i y).
Proof.
  intros HW _. split; [|split].
  - intros (i & y & Hc).
    destruct (first_crossing_year W annual temp) as [e|y0] eqn:Hf.
    + apply first_crossing_year_inl in Hf as [_ Hno]; [|exact HW].
      destruct (Hno _ _ Hc).
    + exists y0. split; [reflexivity|].
      apply first_crossing_year_inr in Hf; [exact Hf|exact HW].
  - intros Hno. apply first_crossing_year_inl; auto.
  - intros e He. apply first_crossing_year_inl in He; [exact He|exact HW].
Qed.

Lemma unordered_years_accepted_witness :
  exists y0,
    first_crossing_year 1 shuffled 1 = inr y0 /\
    (exists i, crossing_at 1 shuffled 1 i y0) /\
    forall i y, crossing_at 1 shuffled 1 i y -> (y0 <= y)%Z.
Proof.
  refine (proj1 (unordered_years_accepted 1 shuffled 1 _ _) _).
  - lia.
  - unfold years_increasing. intros H. apply Sorted_inv in H as [_ H].
    simpl in H. apply HdRel_inv in H. lia.
  - exists 2, 1999%Z.
    apply (crossing_at_intro 1 shuffled 1 2 1999 [2]%Q); reflexivity.
Defined.

(** C10: over one smoothed series, raising the threshold never brings the
    crossing year forward, and a threshold that is not reached leaves every
    higher threshold unreached too (the same exception). *)
Theorem year_temp_smoothed_monotone (smoothed : list (Z * option Q)) (t1 t2 : Q) :
  (t1 <= t2)%Q ->
  (forall y1 y2,
      year_temp_smoothed smoothed t1 = inr y1 ->
      year_temp_smoothed smoothed t2 = inr y2 -> (y1 <= y2)%Z) /\
  (forall e,
      year_temp_smoothed smoothed t1 = inl e ->
      year_temp_smoothed smoothed t2 = inl e).
Proof.
  intros Hle.
  assert (forall y, y ∈ where_drop smoothed t2 -> y ∈ where_drop smoothed t1) as Hsub.
  { intros y. rewrite !elem_of_where_drop. intros (v & Hin & Hv).
    exists v. split; [exact Hin|]. eapply Qle_trans; eassumption. }
  unfold year_temp_smoothed. split.
  - intros y1 y2 H1 H2. apply year_min_inr in H1 as [_ Hmin].
    apply year_min_inr in H2 as [Hin _]. auto.
  - intros e H1. apply year_min_inl in H1 as [Hnil ->].
    apply year_min_inl. split; [|reflexivity].
    destruct (where_drop smoothed t2) as [|y ys]; [reflexivity|].
    specialize (Hsub y (list_elem_of_here _ _)). rewrite Hnil in Hsub. inversion Hsub.
Qed.

Lemma year_temp_smoothed_monotone_witness :
  (2001 <= 2002)%Z /\
  year_temp_smoothed
    [(2000%Z, None); (2001%Z, Some 1%Q); (2002%Z, Some 2%Q)] 2 = inr 2002%Z.
Proof.
  split; [|reflexivity].
  refine (proj1 (year_temp_smoothed_monotone
                   [(2000%Z, None); (2001%Z, Some 1%Q); (2002%Z, Some 2%Q)]
                   1 2 _) 2001%Z 2002%Z _ _).
  - apply Qle_bool_iff. reflexivity.
  - reflexivity.
  - reflexivity.
Defined.

(** ** The rolling mean (C3, C6) *)


(** A window wider than the series lies within it at no position. *)
Lemma rolling_mean_all_undefined (W : nat) (annual : list (Z * Q)) :
  length annual < W ->
  rolling_mean W annual = inr ((fun yv : Z * Q => (yv.1, None)) <$> annual).
Proof.
  intros Hlt. rewrite rolling_mean_inr by lia. f_equal.
  apply list_eq. intros i. rewrite list_lookup_imap, list_lookup_fmap.
  destruct (annual !! i) as [yv|] eqn:Hyv; [|reflexivity]. simpl.
  replace (window W (annual.*2) i) with (@None (list Q)); [reflexivity|].
  symmetry. apply window_None. rewrite length_fmap.
  apply lookup_lt_Some in Hyv. lia.
Qed.

Lemma rolling_mean_with_accepted (bottleneck : bool) (W : nat)
    (annual : list (Z * Q)) :
  bottleneck = false \/ W <= length annual + bottleneck_pad W ->
  rolling_mean_with bottleneck W annual = rolling_mean W annual.
Proof.
  intros H. unfold rolling_mean_with.
  destruct H as [->|H]; [reflexivity|].
  replace (length annual + bottleneck_pad W <? W) with false;
    [rewrite andb_false_r; reflexivity|].
  symmetry. apply Nat.ltb_ge. exact H.
Qed.

Lemma rolling_mean_with_refused (W : nat) (annual : list (Z * Q)) :
  length annual + bottleneck_pad W < W ->
  rolling_mean_with true W annual = inl ValueError.
Proof.
  intros H. unfold rolling_mean_with.
  apply Nat.ltb_lt in H. rewrite H. reflexivity.
Qed.





(** C6, what the claim says fails: with bottleneck installed, the window of
    20 years over the series of seven years is wider than the padded series
    (7 + 9 entries) and the rolling mean raises; no series is returned. *)
Lemma too_wide_window_refused_by_bottleneck :
  length rising < rolling_ave_window /\
  rolling_mean_with true rolling_ave_window rising = inl ValueError /\
  ~ exists smoothed, rolling_mean_with true rolling_ave_window rising = inr smoothed.
Proof.
  assert (rolling_mean_with true rolling_ave_window rising = inl ValueError) as Hr
    by (vm_compute; reflexivity).
  split; [vm_compute; lia|]. split; [exact Hr|].
  intros [smoothed Hs]. rewrite Hr in Hs. discriminate.
Qed.

(** C6, amended: for a series shorter than the window, the smoothed series
    has every entry undefined when bottleneck is not in use or the window is
    no wider than the padded series; with bottleneck in use and a window
    wider than the padded series the rolling mean raises [ValueError]. *)
Theorem rolling_mean_window_too_wide (bottleneck : bool) (W : nat)
    (annual : list (Z * Q)) :
  length annual < W ->
  (bottleneck = false \/ W <= length annual + bottleneck_pad W ->
     rolling_mean_with bottleneck W annual =
       inr ((fun yv : Z * Q => (yv.1, None)) <$> annual)) /\
  (bottleneck = true -> length annual + bottleneck_pad W < W ->
     rolling_mean_with bottleneck W annual = inl ValueError).
Proof.
  intros Hlt. split.
  - intros Hacc. rewrite rolling_mean_with_accepted by exact Hacc.
    apply rolling_mean_all_undefined. exact Hlt.
  - intros -> Hwide. apply rolling_mean_with_refused. exact Hwide.
Qed.

Lemma rolling_mean_window_too_wide_witness :
  rolling_mean_with false rolling_ave_window rising =
    inr ((fun yv : Z * Q => (yv.1, None)) <$> rising) /\
  rolling_mean_with true 8 rising =
    inr ((fun yv : Z * Q => (yv.1, None)) <$> rising).
Proof.
  split.
  - refine (proj1 (rolling_mean_window_too_wide false rolling_ave_window rising _) _).
    + vm_compute. lia.
    + left. reflexivity.
  - refine (proj1 (rolling_mean_window_too_wide true 8 rising _) _).
    + vm_compute. lia.
    + right. vm_compute. lia.
Defined.

(** ** Widening the window (C7) *)

Lemma half_le_mono (W1 W2 : nat) :
  W1 <= W2 ->
  W1 / 2 <= W2 / 2 /\ W1 / 2 <= W1 /\ W2 / 2 <= W2 /\
  W1 - W1 / 2 <= W2 - W2 / 2.
Proof.
  intros Hle.
  pose proof (Nat.div_mod_eq W1 2) as E1. pose proof (Nat.div_mod_eq W2 2) as E2.
  pose proof (Nat.mod_upper_bound W1 2 ltac:(lia)) as M1.
  pose proof (Nat.mod_upper_bound W2 2 ltac:(lia)) as M2.
  lia.
Qed.

Lemma StronglySorted_lookup_lt (xs : list Q) :
  StronglySorted Qlt xs -> strictly_increasing xs.
Proof.
  induction 1 as [|x xs Hs IH Hall]; intros i j a b Hij Hi Hj.
  - rewrite lookup_nil in Hi. discriminate.
  - destruct j as [|j]; [lia|]. simpl in Hj.
    destruct i as [|i]; simpl in Hi.
    + injection Hi as ->. rewrite Forall_forall in Hall.
      apply Hall. eapply list_elem_of_lookup_2. exact Hj.
    + apply (IH i j); [lia|assumption..].
Qed.

Lemma rising_strictly_increasing : strictly_increasing (rising.*2).
Proof.
  apply StronglySorted_lookup_lt.
  change (rising.*2) with [0; 1; 2; 3; 4; 5; 6]%Q.
  repeat (constructor; try reflexivity).
Qed.

(** C7, what the claim says fails: on the series rising by one degree a
    year, the threshold 3 is crossed in 2004 with the window 2 and in 2003
    with the wider window 3. *)
Lemma wider_window_crosses_earlier :
  strictly_increasing (rising.*2) /\
  first_crossing_year 2 rising 3 = inr 2004%Z /\
  first_crossing_year 3 rising 3 = inr 2003%Z /\
  ~ (2004 <= 2003)%Z.
Proof.
  split; [exact rising_strictly_increasing|].
  split; [vm_compute; reflexivity|].
  split; [vm_compute; reflexivity|lia].
Qed.

(** C7, amended: enlarging the window can move the crossing year either
    way.  What enlarging the window does delay is the span in which a
    crossing can be detected: for [W1 <= W2], the crossing year found with
    the window [W2] is the year of a position at least [W2/2 >= W1/2] from
    the start of the series and whose window, of either width, ends within
    the series, so the smoothed value of the narrower window is defined
    there as well. *)
Theorem wider_window_detects_within_narrower (W1 W2 : nat)
    (annual : list (Z * Q)) (temp : Q) (y2 : Z) :
  0 < W1 -> W1 <= W2 ->
  first_crossing_year W2 annual temp = inr y2 ->
  exists i,
    annual.*1 !! i = Some y2 /\
    W1 / 2 <= W2 / 2 /\ W2 / 2 <= i /\
    i - W1 / 2 + W1 <= i - W2 / 2 + W2 /\
    i - W2 / 2 + W2 <= length annual.
Proof.
  intros HW1 Hle H2.
  apply first_crossing_year_inr in H2 as [[i (Hy & ws & Hc & _)] _]; [|lia].
  apply centered_window_bounds in Hc as [Hlo Hhi]; [|lia].
  rewrite length_fmap in Hhi.
  destruct (half_le_mono W1 W2 Hle) as (Hhalf & Hd1 & Hd2 & Hrest).
  exists i. repeat split; try assumption. lia.
Qed.

Lemma wider_window_detects_within_narrower_witness :
  exists i,
    rising.*1 !! i = Some 2003%Z /\
    2 / 2 <= 3 / 2 /\ 3 / 2 <= i /\
    i - 2 / 2 + 2 <= i - 3 / 2 + 3 /\
    i - 3 / 2 + 3 <= length rising.
Proof.
  apply (wider_window_detects_within_narrower 2 3 rising 3 2003).
  - lia.
  - lia.
  - vm_compute. reflexivity.
Defined.

(** ** The accumulation loop and the namespace (C5) *)

Lemma inner_loop_gathered (W : nat) (temp : pynum)
    (cmip6 : list (string * list (Z * Q))) (ns : namespace) (l : list Z) :
  ns !! firstyear_rolling temp = Some l ->
  for_each cmip6 (fun model => append_year W temp model.2) ns =
  (<[firstyear_rolling temp := l ++ (gathered W (num temp) cmip6).1]> ns,
   (gathered W (num temp) cmip6).2).
Proof.
  revert ns l. induction cmip6 as [|model rest IH]; intros ns l Hl; simpl.
  - unfold ret. rewrite app_nil_r, insert_id by exact Hl. reflexivity.
  - unfold bind at 1. unfold append_year at 1. unfold bind at 1, lift.
    destruct (first_crossing_year W model.2 (num temp)) as [e|year]; simpl.
    + rewrite app_nil_r, insert_id by exact Hl. reflexivity.
    + unfold bind, vars_get, vars_set. rewrite Hl.
      rewrite (IH _ (l ++ [year])) by apply lookup_insert_eq.
      destruct (gathered W (num temp) rest) as [years r]. simpl.
      rewrite insert_insert_eq, <- app_assoc. reflexivity.
Qed.

Lemma loop_bindings (W : nat) (temps : list pynum)
    (cmip6 : list (string * list (Z * Q))) (ns : namespace) :
  firstyear_rolling_loop W temps cmip6 ns =
  (rebind (bindings W temps cmip6).1 ns, (bindings W temps cmip6).2).
Proof.
  unfold firstyear_rolling_loop. revert ns.
  induction temps as [|temp rest IH]; intros ns; simpl; [reflexivity|].
  unfold bind at 1. unfold bind at 1. unfold vars_set at 1.
  rewrite (inner_loop_gathered W temp cmip6 _ []) by apply lookup_insert_eq.
  rewrite insert_insert_eq. simpl.
  destruct (gathered W (num temp) cmip6) as [years [e|[]]]; simpl; [reflexivity|].
  rewrite IH. destruct (bindings W rest cmip6) as [bs r]. reflexivity.
Qed.

Lemma rebind_union (bs : list (string * list Z)) (ns : namespace) :
  rebind bs ns = list_to_map (reverse bs) ∪ ns.
Proof.
  unfold rebind. revert ns. induction bs as [|[k v] bs IH]; intros ns; simpl.
  - rewrite (left_id_L ∅ (∪)). reflexivity.
  - rewrite IH, reverse_cons, list_to_map_app. simpl.
    rewrite <- (assoc_L (∪)). f_equal.
    rewrite insert_empty, <- insert_union_singleton_l. reflexivity.
Qed.

Lemma loop_overwrites (W : nat) (temps : list pynum)
    (cmip6 : list (string * list (Z * Q))) (ns : namespace) :
  firstyear_rolling_loop W temps cmip6 ns =
  (list_to_map (reverse (bindings W temps cmip6).1) ∪ ns,
   (bindings W temps cmip6).2).
Proof. rewrite loop_bindings, rebind_union. reflexivity. Qed.

Lemma loop_run_twice (W : nat) (temps : list pynum)
    (cmip6 : list (string * list (Z * Q))) (ns : namespace) :
  firstyear_rolling_loop W temps cmip6
    (firstyear_rolling_loop W temps cmip6 ns).1
  = firstyear_rolling_loop W temps cmip6 ns.
Proof.
  rewrite !loop_overwrites. simpl. f_equal.
  rewrite (assoc_L (∪)), (idemp_L (∪)). reflexivity.
Qed.

Lemma reads_only_ret {A} (a : A) : reads_only (ret a).
Proof. intros ns. reflexivity. Qed.

Lemma reads_only_lift {A} (r : result A) : reads_only (lift r).
Proof. intros ns. reflexivity. Qed.

Lemma reads_only_vars_get (name : string) : reads_only (vars_get name).
Proof. intros ns. unfold vars_get. destruct (ns !! name); reflexivity. Qed.

Lemma reads_only_bind {A B} (c : cell A) (k : A -> cell B) :
  reads_only c -> (forall a, reads_only (k a)) -> reads_only (bind c k).
Proof.
  intros Hc Hk ns. unfold bind. specialize (Hc ns).
  destruct (c ns) as [ns' [e|a]]; simpl in *; [exact Hc|].
  rewrite Hk. exact Hc.
Qed.

Ltac reads_only :=
  repeat first
    [ apply reads_only_ret | apply reads_only_lift | apply reads_only_vars_get
    | apply reads_only_bind; [|intros ?] ].

Lemma table_cell_reads_only (cmip6_models : list string) (temps : list pynum) :
  reads_only (table_cell cmip6_models temps).
Proof. unfold table_cell. reads_only. Qed.

Lemma summary_cell_reads_only (temp : pynum) : reads_only (summary_cell temp).
Proof. unfold summary_cell. reads_only. Qed.

(** A loop that can be run again without effect, followed by a cell that
    only reads, can be run again without effect. *)
Lemma run_twice_then_read {A} (loop : cell unit) (c : cell A) (ns : namespace) :
  (forall ns, loop (loop ns).1 = loop ns) ->
  reads_only c ->
  bind loop (fun _ => c) (bind loop (fun _ => c) ns).1 = bind loop (fun _ => c) ns.
Proof.
  intros Hloop Hc. unfold bind at 2 3.
  pose proof (Hloop ns) as Hl.
  destruct (loop ns) as [ns1 [e|[]]] eqn:Hrun; simpl in *.
  - unfold bind. rewrite Hl. reflexivity.
  - rewrite Hc. unfold bind. rewrite Hl. reflexivity.
Qed.

(** C5: the accumulation loop rebinds a fixed set of names to values fixed
    by its inputs, whatever the namespace held before, and ends the same way;
    run again on the namespace they left, the loop, the run that writes the
    table and the run that prints the summary each leave the same namespace
    and give the same result. *)
Theorem notebook_run_idempotent (W : nat) (temps : list pynum)
    (cmip6 : list (string * list (Z * Q))) :
  (exists (written : namespace) (outcome : result unit),
      forall ns, firstyear_rolling_loop W temps cmip6 ns = (written ∪ ns, outcome)) /\
  (forall ns,
      firstyear_rolling_loop W temps cmip6
        (firstyear_rolling_loop W temps cmip6 ns).1
      = firstyear_rolling_loop W temps cmip6 ns) /\
  (forall ns,
      export_table W temps cmip6 (export_table W temps cmip6 ns).1
      = export_table W temps cmip6 ns) /\
  (forall temp ns,
      print_summary W temps cmip6 temp (print_summary W temps cmip6 temp ns).1
      = print_summary W temps cmip6 temp ns).
Proof.
  split; [|split; [|split]].
  - exists (list_to_map (reverse (bindings W temps cmip6).1)), (bindings W temps cmip6).2.
    apply loop_overwrites.
  - apply loop_run_twice.
  - intros ns. apply run_twice_then_read;
      [apply loop_run_twice|apply table_cell_reads_only].
  - intros temp ns. apply run_twice_then_read;
      [apply loop_run_twice|apply summary_cell_reads_only].
Qed.

(** ** The lists the loop leaves behind *)

Lemma gathered_all (W : nat) (temp : Q) (cmip6 : list (string * list (Z * Q))) :
  (forall model, model ∈ cmip6 ->
     exists year, first_crossing_year W model.2 temp = inr year) ->
  gathered W temp cmip6 =
    ((fun model => crossing_year W temp model.2) <$> cmip6, inr tt).
Proof.
  induction cmip6 as [|model rest IH]; intros Hall; simpl; [reflexivity|].
  destruct (Hall model (list_elem_of_here _ _)) as [year Hy].
  unfold crossing_year at 1. rewrite Hy, IH; [reflexivity|].
  intros m Hm. apply Hall, list_elem_of_further, Hm.
Qed.

Lemma gathered_raises (W : nat) (temp : Q) (cmip6 : list (string * list (Z * Q)))
    (model : string * list (Z * Q)) (e : exn) :
  model ∈ cmip6 -> first_crossing_year W model.2 temp = inl e ->
  exists e', (gathered W temp cmip6).2 = inl e'.
Proof.
  induction cmip6 as [|m rest IH]; intros Hin He; [inversion Hin|]. simpl.
  destruct (first_crossing_year W m.2 temp) as [e0|year] eqn:Hm; [eauto|].
  apply elem_of_cons in Hin as [->|Hin]; [congruence|].
  destruct (IH Hin He) as [e' He'].
  destruct (gathered W temp rest) as [years r]. simpl in *. eauto.
Qed.

Lemma bindings_all (W : nat) (temps : list pynum)
    (cmip6 : list (string * list (Z * Q))) :
  all_reach W temps cmip6 ->
  bindings W temps cmip6 =
    ((fun temp => (firstyear_rolling temp,
                   (fun model => crossing_year W (num temp) model.2) <$> cmip6))
       <$> temps, inr tt).
Proof.
  induction temps as [|temp rest IH]; intros Hall; simpl; [reflexivity|].
  rewrite gathered_all.
  - rewrite IH; [reflexivity|].
    intros t m Ht Hm. apply Hall; [apply list_elem_of_further, Ht|exact Hm].
  - intros m Hm. apply Hall; [apply list_elem_of_here|exact Hm].
Qed.

Lemma bindings_raises (W : nat) (temps : list pynum)
    (cmip6 : list (string * list (Z * Q)))
    (temp : pynum) (model : string * list (Z * Q)) (e : exn) :
  temp ∈ temps -> model ∈ cmip6 ->
  first_crossing_year W model.2 (num temp) = inl e ->
  exists e', (bindings W temps cmip6).2 = inl e'.
Proof.
  induction temps as [|t rest IH]; intros Ht Hm He; [inversion Ht|]. simpl.
  destruct (gathered W (num t) cmip6) as [years [e0|[]]] eqn:Hg; simpl; [eauto|].
  apply elem_of_cons in Ht as [->|Ht].
  - destruct (gathered_raises W (num t) cmip6 model e Hm He) as [e' He'].
    rewrite Hg in He'. discriminate.
  - destruct (IH Ht Hm He) as [e' He'].
    destruct (bindings W rest cmip6) as [bs r]. simpl in *. eauto.
Qed.

Lemma app_C_inj (s1 s2 : string) : s1 +:+ "C" = s2 +:+ "C" -> s1 = s2.
Proof.
  revert s2. induction s1 as [|a s1 IH]; intros [|b s2]; simpl; intros H.
  - reflexivity.
  - injection H as _ H. destruct s2; discriminate.
  - injection H as _ H. destruct s1; discriminate.
  - injection H as -> H. f_equal. apply IH, H.
Qed.

Lemma firstyear_rolling_inj (t1 t2 : pynum) :
  firstyear_rolling t1 = firstyear_rolling t2 -> str t1 = str t2.
Proof.
  unfold firstyear_rolling. intros H.
  apply (inj (String.app "firstyear_rolling_")) in H. apply app_C_inj, H.
Qed.

Lemma loop_leaves_years (W : nat) (temps : list pynum)
    (cmip6 : list (string * list (Z * Q))) (temp : pynum) (ns : namespace) :
  all_reach W temps cmip6 ->
  temp ∈ temps ->
  (forall t, t ∈ temps -> str t = str temp -> t = temp) ->
  firstyear_rolling_loop W temps cmip6 ns =
    ((firstyear_rolling_loop W temps cmip6 ns).1, inr tt) /\
  (firstyear_rolling_loop W temps cmip6 ns).1 !! firstyear_rolling temp =
    Some ((fun model => crossing_year W (num temp) model.2) <$> cmip6).
Proof.
  intros Hall Hin Huniq. rewrite loop_bindings, bindings_all by exact Hall.
  split; [reflexivity|]. simpl. rewrite rebind_union.
  apply lookup_union_Some_l, elem_of_list_to_map_1'.
  - intros years Hy. apply elem_of_reverse, list_elem_of_fmap in Hy as (t & Heq & Ht).
    assert (firstyear_rolling temp = firstyear_rolling t) as Hk
      by exact (f_equal fst Heq).
    apply firstyear_rolling_inj in Hk.
    rewrite <- (Huniq t Ht) by (symmetry; exact Hk).
    exact (eq_sym (f_equal snd Heq)).
  - apply elem_of_reverse, list_elem_of_fmap. exists temp. split; [reflexivity|exact Hin].
Qed.

Lemma first_crossing_year_error (W : nat) (annual : list (Z * Q)) (temp : Q)
    (e : exn) :
  first_crossing_year W annual temp = inl e -> e = ValueError.
Proof.
  destruct W as [|W].
  - unfold first_crossing_year. rewrite rolling_mean_zero. congruence.
  - intros H. apply first_crossing_year_inl in H as [-> _]; [reflexivity|lia].
Qed.

Lemma gathered_inl (W : nat) (temp : Q) (cmip6 : list (string * list (Z * Q)))
    (e : exn) :
  (gathered W temp cmip6).2 = inl e ->
  e = ValueError /\
  exists model, model ∈ cmip6 /\ first_crossing_year W model.2 temp = inl ValueError.
Proof.
  induction cmip6 as [|m rest IH]; simpl; [discriminate|].
  destruct (first_crossing_year W m.2 temp) as [e0|year] eqn:Hm; simpl.
  - intros [= <-]. pose proof (first_crossing_year_error _ _ _ _ Hm) as ->.
    split; [reflexivity|]. exists m. split; [apply list_elem_of_here|exact Hm].
  - destruct (gathered W temp rest) as [years r]. simpl in *. intros Hr.
    destruct (IH Hr) as (-> & model & Hin & Hf).
    split; [reflexivity|]. exists model. split; [apply list_elem_of_further, Hin|exact Hf].
Qed.

Lemma bindings_inl (W : nat) (temps : list pynum)
    (cmip6 : list (string * list (Z * Q))) (e : exn) :
  (bindings W temps cmip6).2 = inl e ->
  e = ValueError /\
  exists temp model, temp ∈ temps /\ model ∈ cmip6 /\
    first_crossing_year W model.2 (num temp) = inl ValueError.
Proof.
  induction temps as [|t rest IH]; simpl; [discriminate|].
  destruct (gathered W (num t) cmip6) as [years [e0|[]]] eqn:Hg; simpl.
  - intros [= <-]. destruct (gathered_inl W (num t) cmip6 e0) as (-> & m & Hm & Hf).
    { rewrite Hg. reflexivity. }
    split; [reflexivity|]. exists t, m. split; [apply list_elem_of_here|]. auto.
  - destruct (bindings W rest cmip6) as [bs r]. simpl in *. intros Hr.
    destruct (IH Hr) as (-> & t' & m & Ht & Hm & Hf).
    split; [reflexivity|]. exists t', m. split; [apply list_elem_of_further, Ht|]. auto.
Qed.

Lemma loop_raises_ValueError (W : nat) (temps : list pynum)
    (cmip6 : list (string * list (Z * Q)))
    (temp : pynum) (model : string * list (Z * Q)) (e : exn) (ns : namespace) :
  temp ∈ temps -> model ∈ cmip6 ->
  first_crossing_year W model.2 (num temp) = inl e ->
  (firstyear_rolling_loop W temps cmip6 ns).2 = inl ValueError.
Proof.
  intros Ht Hm He. rewrite loop_bindings. simpl.
  destruct (bindings_raises W temps cmip6 temp model e Ht Hm He) as [e' He'].
  rewrite He'. apply bindings_inl in He' as [-> _]. reflexivity.
Qed.



(** ** The summary cell (C4) *)

Lemma crossing_year_column (W : nat) (temp : Q) (cmip6 : list (string * list (Z * Q))) :
  (forall model, model ∈ cmip6 ->
     exists year, first_crossing_year W model.2 temp = inr year) ->
  Forall2 (fun model year => first_crossing_year W model.2 temp = inr year)
    cmip6 ((fun model => crossing_year W temp model.2) <$> cmip6).
Proof.
  induction cmip6 as [|model rest IH]; intros Hall; simpl; constructor.
  - destruct (Hall model (list_elem_of_here _ _)) as [year Hy].
    unfold crossing_year. rewrite Hy. reflexivity.
  - apply IH. intros m Hm. apply Hall, list_elem_of_further, Hm.
Qed.

Ltac elem_cases H :=
  repeat (apply elem_of_cons in H as [->|H]); [..|apply elem_of_nil in H; destruct H].

Lemma loaded_all_reach : all_reach 3 temps loaded.
Proof.
  intros temp model Ht Hm. elem_cases Hm; elem_cases Ht;
    eexists; vm_compute; reflexivity.
Qed.

Lemma temps_printed_apart (temp : pynum) :
  temp ∈ temps -> forall t, t ∈ temps -> str t = str temp -> t = temp.
Proof.
  intros Htemp t Ht. elem_cases Htemp; elem_cases Ht;
    first [reflexivity | discriminate].
Qed.

(** C4, what the claim says fails: model A reaches two degrees in 2002 and
    model B never does; the claim gives the summary of A's year alone, but
    the run raises in the accumulation loop and prints no summary, and the
    list that the summary cell reads was never bound. *)
Lemma unreached_model_stops_summary :
  first_crossing_year 3 rising (num py2) = inr 2002%Z /\
  first_crossing_year 3 flat (num py2) = inl ValueError /\
  (print_summary 3 temps two_models py2 ∅).2 = inl ValueError /\
  (print_summary 3 temps two_models py2 ∅).2 <>
    inr (np_median [2002%Z], np_quantile [2002%Z] (5 # 100),
         np_quantile [2002%Z] (95 # 100)) /\
  (summary_cell py2 (firstyear_rolling_loop 3 temps two_models ∅).1).2 = inl KeyError.
Proof.
  assert ((print_summary 3 temps two_models py2 ∅).2 = inl ValueError) as Hp
    by (vm_compute; reflexivity).
  split; [vm_compute; reflexivity|]. split; [vm_compute; reflexivity|].
  split; [exact Hp|]. split; [rewrite Hp; discriminate|].
  vm_compute. reflexivity.
Qed.

(** C4, amended: no "unreached" entry is ever stored.  When the ensemble is
    not empty and every model reaches every threshold, the summary printed
    for a threshold is the median and the 5% and 95% quantiles of the
    crossing years of all the models; when some model does not reach some
    threshold, the run raises in the accumulation loop and prints no
    summary.  (Thresholds that print alike are taken to be the same number,
    as [str] ensures.) *)
Theorem summary_over_all_models (W : nat) (temps : list pynum)
    (cmip6 : list (string * list (Z * Q))) (temp : pynum) (ns : namespace) :
  cmip6 <> [] ->
  temp ∈ temps ->
  (forall t, t ∈ temps -> str t = str temp -> t = temp) ->
  (all_reach W temps cmip6 ->
     exists years,
       years <> [] /\
       Forall2 (fun model year =>
                  first_crossing_year W model.2 (num temp) = inr year)
         cmip6 years /\
       (print_summary W temps cmip6 temp ns).2 =
         inr (np_median years, np_quantile years (5 # 100),
              np_quantile years (95 # 100))) /\
  (forall t model e,
     t ∈ temps -> model ∈ cmip6 ->
     first_crossing_year W model.2 (num t) = inl e ->
     (print_summary W temps cmip6 temp ns).2 = inl ValueError).
Proof.
  intros Hne Hin Huniq. split.
  - intros Hall.
    exists ((fun model => crossing_year W (num temp) model.2) <$> cmip6).
    split; [|split].
    + destruct cmip6; [congruence|discriminate].
    + apply crossing_year_column. intros m Hm. apply Hall; assumption.
    + destruct (loop_leaves_years W temps cmip6 temp ns Hall Hin Huniq) as [Hrun Hlook].
      unfold print_summary, bind. rewrite Hrun.
      unfold summary_cell, bind, vars_get. rewrite Hlook. reflexivity.
  - intros t model e Ht Hm He.
    pose proof (loop_raises_ValueError W temps cmip6 t model e ns Ht Hm He) as Hl.
    unfold print_summary, bind.
    destruct (firstyear_rolling_loop W temps cmip6 ns) as [ns' r].
    simpl in Hl. rewrite Hl. reflexivity.
Qed.

Lemma summary_over_all_models_witness :
  exists years,
    years <> [] /\
    Forall2 (fun model year =>
               first_crossing_year 3 model.2 (num py2) = inr year)
      loaded years /\
    (print_summary 3 temps loaded py2 ∅).2 =
      inr (np_median years, np_quantile years (5 # 100),
           np_quantile years (95 # 100)).
Proof.
  refine (proj1 (summary_over_all_models 3 temps loaded py2 ∅ _ _ _) _).
  - discriminate.
  - do 2 apply list_elem_of_further. apply list_elem_of_here.
  - apply temps_printed_apart. do 2 apply list_elem_of_further. apply list_elem_of_here.
  - exact loaded_all_reach.
Defined.

(** ** The table cell (C8) *)

#[local] Instance index_le_total : Total index_le.
Proof. intros r1 r2. apply (total String.le). Qed.

#[local] Instance index_le_trans : Transitive index_le.
Proof. intros r1 r2 r3. unfold index_le. apply transitivity. Qed.










Example export_table_loaded :
  (export_table 3 temps loaded ∅).2 =
    inr {| columns := temps;
           rows := [("ACCESS-CM2", [2001; 2001; 2001; 2002; 2002]%Z);
                    ("NorESM2-LM", [2001; 2002; 2002; 2003; 2003]%Z)] |}.
Proof. vm_compute. reflexivity. Qed.

(** * Further properties of the cells *)

(** ** Where a crossing can be detected *)

Lemma first_crossing_year_window_positive (W : nat) (annual : list (Z * Q))
    (temp : Q) (y : Z) :
  first_crossing_year W annual temp = inr y -> 0 < W.
Proof.
  destruct W as [|W]; [|lia]. unfold first_crossing_year.
  rewrite rolling_mean_zero. discriminate.
Qed.

Lemma crossing_at_position (W : nat) (annual : list (Z * Q)) (temp : Q)
    (i : nat) (y : Z) :
  0 < W -> crossing_at W annual temp i y ->
  annual.*1 !! i = Some y /\ W / 2 <= i /\ i - W / 2 + W <= length annual.
Proof.
  intros HW (Hy & ws & Hc & _). split; [exact Hy|].
  apply centered_window_bounds in Hc; [|exact HW].
  rewrite length_fmap in Hc. exact Hc.
Qed.

(** The crossing year is the label of a position whose whole window lies in
    the series; on a series of consecutive years starting at [y0] it is
    therefore at least [W/2] years after the first year and at least
    [W - 1 - W/2] years before the last one. *)
Theorem crossing_year_away_from_ends (W : nat) (annual : list (Z * Q))
    (temp : Q) (y0 y : Z) :
  annual.*1 = seqZ y0 (Z.of_nat (length annual)) ->
  first_crossing_year W annual temp = inr y ->
  (y0 + Z.of_nat (W / 2) <= y)%Z /\
  (y + Z.of_nat (W - W / 2) <= y0 + Z.of_nat (length annual))%Z.
Proof.
  intros Hyears Hf.
  pose proof (first_crossing_year_window_positive _ _ _ _ Hf) as HW.
  apply first_crossing_year_inr in Hf as [[i Hi] _]; [|exact HW].
  apply crossing_at_position in Hi as (Hy & Hlo & Hhi); [|exact HW].
  rewrite Hyears in Hy. apply lookup_seqZ in Hy as [-> Hlt].
  lia.
Qed.

Lemma crossing_year_away_from_ends_witness :
  (2000 + Z.of_nat (3 / 2) <= 2003)%Z /\
  (2003 + Z.of_nat (3 - 3 / 2) <= 2000 + Z.of_nat (length rising))%Z.
Proof.
  apply (crossing_year_away_from_ends 3 rising 3 2000 2003).
  - reflexivity.
  - vm_compute. reflexivity.
Defined.

(** ** How the accumulation loop ends *)

Lemma bindings_inr (W : nat) (temps : list pynum)
    (cmip6 : list (string * list (Z * Q))) (u : unit) :
  (bindings W temps cmip6).2 = inr u -> all_reach W temps cmip6.
Proof.
  intros Hb temp model Ht Hm.
  destruct (first_crossing_year W model.2 (num temp)) as [e|year] eqn:Hf; [|eauto].
  destruct (bindings_raises W temps cmip6 temp model e Ht Hm Hf) as [e' He'].
  rewrite Hb in He'. discriminate.
Qed.

(** ** The summary does not depend on the order of the models *)

Lemma sorted_years_Permutation (a b : list Z) :
  a ≡ₚ b -> sorted_years a = sorted_years b.
Proof.
  intros Hab. unfold sorted_years. apply (Sorted_unique Z.le).
  - apply Sorted_merge_sort. apply _.
  - apply Sorted_merge_sort. apply _.
  - rewrite !merge_sort_Permutation. exact Hab.
Qed.

Lemma np_median_Permutation (a b : list Z) : a ≡ₚ b -> np_median a = np_median b.
Proof.
  intros Hab. unfold np_median. rewrite (sorted_years_Permutation a b Hab). reflexivity.
Qed.

Lemma np_quantile_Permutation (a b : list Z) (q : Q) :
  a ≡ₚ b -> np_quantile a q = np_quantile b q.
Proof.
  intros Hab. unfold np_quantile. rewrite (sorted_years_Permutation a b Hab). reflexivity.
Qed.

Lemma print_summary_raises (W : nat) (temps : list pynum)
    (cmip6 : list (string * list (Z * Q))) (temp : pynum) (ns : namespace) (e : exn) :
  (bindings W temps cmip6).2 = inl e ->
  (print_summary W temps cmip6 temp ns).2 = inl ValueError.
Proof.
  intros Hb. unfold print_summary, bind. rewrite loop_bindings, Hb.
  apply bindings_inl in Hb as [-> _]. reflexivity.
Qed.

Lemma print_summary_years (W : nat) (temps : list pynum)
    (cmip6 : list (string * list (Z * Q))) (temp : pynum) (ns : namespace) :
  all_reach W temps cmip6 ->
  temp ∈ temps ->
  (forall t, t ∈ temps -> str t = str temp -> t = temp) ->
  (print_summary W temps cmip6 temp ns).2 =
    let years := (fun model => crossing_year W (num temp) model.2) <$> cmip6 in
    inr (np_median years, np_quantile years (5 # 100), np_quantile years (95 # 100)).
Proof.
  intros Hall Hin Huniq.
  destruct (loop_leaves_years W temps cmip6 temp ns Hall Hin Huniq) as [Hrun Hlook].
  unfold print_summary, bind. rewrite Hrun.
  unfold summary_cell, bind, vars_get. rewrite Hlook. reflexivity.
Qed.

(** The summary printed for a threshold of the set (or the exception raised
    instead) is the same for every order in which the models were loaded and
    for every namespace the run starts from. *)
Theorem summary_same_for_any_model_order (W : nat) (temps : list pynum)
    (cmip6 cmip6' : list (string * list (Z * Q))) (temp : pynum)
    (ns ns' : namespace) :
  temp ∈ temps ->
  (forall t, t ∈ temps -> str t = str temp -> t = temp) ->
  cmip6' ≡ₚ cmip6 ->
  (print_summary W temps cmip6' temp ns').2 =
  (print_summary W temps cmip6 temp ns).2.
Proof.
  intros Hin Huniq Hperm.
  destruct (bindings W temps cmip6).2 as [e|u] eqn:Hb.
  - rewrite (print_summary_raises W temps cmip6 temp ns e Hb).
    apply bindings_inl in Hb as (_ & t & m & Ht & Hm & Hf).
    rewrite <- Hperm in Hm.
    destruct (bindings_raises W temps cmip6' t m _ Ht Hm Hf) as [e' He'].
    apply (print_summary_raises W temps cmip6' temp ns' e' He').
  - apply bindings_inr in Hb.
    assert (all_reach W temps cmip6') as Hall'.
    { intros t m Ht Hm. apply Hb; [exact Ht|]. rewrite <- Hperm. exact Hm. }
    rewrite !print_summary_years by assumption. cbv zeta.
    assert ((fun model : string * list (Z * Q) => crossing_year W (num temp) model.2) <$> cmip6'
            ≡ₚ (fun model => crossing_year W (num temp) model.2) <$> cmip6) as Hp
      by (rewrite Hperm; reflexivity).
    rewrite (np_median_Permutation _ _ Hp), !(np_quantile_Permutation _ _ _ Hp).
    reflexivity.
Qed.

Lemma summary_same_for_any_model_order_witness :
  (print_summary 3 temps (reverse loaded) py2 ∅).2 =
  (print_summary 3 temps loaded py2 ∅).2.
Proof.
  apply (summary_same_for_any_model_order 3 temps loaded (reverse loaded) py2 ∅ ∅).
  - do 2 apply list_elem_of_further. apply list_elem_of_here.
  - apply temps_printed_apart. do 2 apply list_elem_of_further. apply list_elem_of_here.
  - apply reverse_Permutation.
Defined.

(** ** The summary lies within the range of the crossing years *)

Lemma at_index_between (s : list Z) (i : nat) (lo hi : Z) :
  (forall y, y ∈ s -> (lo <= y <= hi)%Z) -> i < length s ->
  (inject_Z lo <= at_index s i)%Q /\ (at_index s i <= inject_Z hi)%Q.
Proof.
  intros Hall Hi. unfold at_index.
  destruct (lookup_lt_is_Some_2 s i Hi) as [y Hy]. rewrite Hy. simpl.
  destruct (Hall y (list_elem_of_lookup_2 _ _ _ Hy)).
  rewrite <- !Zle_Qle. auto.
Qed.

Lemma Q_between_convex (g a b lo hi : Q) :
  (0 <= g)%Q -> (g <= 1)%Q ->
  (lo <= a)%Q -> (a <= hi)%Q -> (lo <= b)%Q -> (b <= hi)%Q ->
  (lo <= a + g * (b - a))%Q /\ (a + g * (b - a) <= hi)%Q.
Proof. intros. split; nra. Qed.

Lemma sorted_years_between (years : list Z) (lo hi : Z) :
  (forall y, y ∈ years -> (lo <= y <= hi)%Z) ->
  forall y, y ∈ sorted_years years -> (lo <= y <= hi)%Z.
Proof.
  intros Hall y Hy. apply Hall. unfold sorted_years in Hy.
  rewrite merge_sort_Permutation in Hy. exact Hy.
Qed.

Lemma sorted_years_length (years : list Z) :
  length (sorted_years years) = length years.
Proof. unfold sorted_years. rewrite merge_sort_Permutation. reflexivity. Qed.

Lemma np_median_between (years : list Z) (lo hi : Z) :
  years <> [] ->
  (forall y, y ∈ years -> (lo <= y <= hi)%Z) ->
  exists v, np_median years = Some v /\
            (inject_Z lo <= v)%Q /\ (v <= inject_Z hi)%Q.
Proof.
  intros Hne Hall. unfold np_median.
  pose proof (sorted_years_between years lo hi Hall) as Hs.
  pose proof (sorted_years_length years) as Hlen.
  set (s := sorted_years years) in *. clearbody s.
  assert (0 < length s) as Hn by (rewrite Hlen; destruct years; simpl; [congruence|lia]).
  destruct (Nat.eqb_spec (length s) 0) as [|_]; [lia|].
  assert (length s / 2 < length s) as Hhalf by (apply Nat.div_lt; lia).
  destruct (Nat.even (length s)).
  - eexists. split; [reflexivity|].
    destruct (at_index_between s (length s / 2 - 1) lo hi Hs) as [H1 H2]; [lia|].
    destruct (at_index_between s (length s / 2) lo hi Hs) as [H3 H4]; [lia|].
    set (a := at_index s (length s / 2 - 1)) in *.
    set (b := at_index s (length s / 2)) in *.
    split; [apply Qle_shift_div_l|apply Qle_shift_div_r]; first [reflexivity|lra].
  - eexists. split; [reflexivity|].
    apply at_index_between; [exact Hs|lia].
Qed.

Lemma np_quantile_between (years : list Z) (q : Q) (lo hi : Z) :
  years <> [] ->
  (0 <= q)%Q -> (q <= 1)%Q ->
  (forall y, y ∈ years -> (lo <= y <= hi)%Z) ->
  exists v, np_quantile years q = Some v /\
            (inject_Z lo <= v)%Q /\ (v <= inject_Z hi)%Q.
Proof.
  intros Hne Hq0 Hq1 Hall. unfold np_quantile.
  pose proof (sorted_years_between years lo hi Hall) as Hs.
  pose proof (sorted_years_length years) as Hlen.
  set (s := sorted_years years) in *. clearbody s.
  assert (0 < length s) as Hn by (rewrite Hlen; destruct years; simpl; [congruence|lia]).
  destruct (Nat.eqb_spec (length s) 0) as [|_]; [lia|].
  eexists. split; [reflexivity|].
  set (m := inject_Z (Z.of_nat (length s - 1))).
  assert (0 <= m)%Q as Hm0.
  { unfold m. change 0%Q with (inject_Z 0). rewrite <- Zle_Qle. lia. }
  set (h := (m * q)%Q).
  assert (0 <= h)%Q as Hh0 by (unfold h; nra).
  assert (h <= m)%Q as Hhm by (unfold h; nra).
  assert (0 <= Qfloor h)%Z as Hf0.
  { change 0%Z with (Qfloor 0). apply Qfloor_resp_le. exact Hh0. }
  assert (Qfloor h <= Z.of_nat (length s - 1))%Z as Hfm.
  { rewrite <- (Qfloor_Z (Z.of_nat (length s - 1))). apply Qfloor_resp_le. exact Hhm. }
  pose proof (Qfloor_le h) as Hfl. pose proof (Qlt_floor h) as Hfu.
  rewrite inject_Z_plus in Hfu. change (inject_Z 1) with 1%Q in Hfu.
  rewrite (Z2Nat.id (Qfloor h) Hf0).
  set (i := Z.to_nat (Qfloor h)).
  assert (i < length s) as Hi by (unfold i; lia).
  destruct (at_index_between s i lo hi Hs Hi) as [H1 H2].
  destruct (at_index_between s (Nat.min (i + 1) (length s - 1)) lo hi Hs) as [H3 H4]; [lia|].
  apply Q_between_convex; try assumption; lra.
Qed.

(** The median and the 5% and 95% quantiles printed for a non-empty list of
    crossing years are numbers between the earliest and the latest of the
    years. *)
Theorem summary_within_range_of_years (years : list Z) (lo hi : Z) :
  years <> [] ->
  (forall y, y ∈ years -> (lo <= y <= hi)%Z) ->
  exists m q05 q95,
    (np_median years, np_quantile years (5 # 100), np_quantile years (95 # 100))
      = (Some m, Some q05, Some q95) /\
    (inject_Z lo <= m)%Q /\ (m <= inject_Z hi)%Q /\
    (inject_Z lo <= q05)%Q /\ (q05 <= inject_Z hi)%Q /\
    (inject_Z lo <= q95)%Q /\ (q95 <= inject_Z hi)%Q.
Proof.
  intros Hne Hall.
  destruct (np_median_between years lo hi Hne Hall) as (m & -> & ? & ?).
  destruct (np_quantile_between years (5 # 100) lo hi Hne) as (q05 & -> & ? & ?);
    [apply Qle_bool_iff; reflexivity..|exact Hall|].
  destruct (np_quantile_between years (95 # 100) lo hi Hne) as (q95 & -> & ? & ?);
    [apply Qle_bool_iff; reflexivity..|exact Hall|].
  exists m, q05, q95. auto 10.
Qed.

Lemma summary_within_range_of_years_witness :
  exists m q05 q95,
    (np_median [2040; 2031; 2052]%Z, np_quantile [2040; 2031; 2052]%Z (5 # 100),
     np_quantile [2040; 2031; 2052]%Z (95 # 100))
      = (Some m, Some q05, Some q95) /\
    (inject_Z 2031 <= m)%Q /\ (m <= inject_Z 2052)%Q /\
    (inject_Z 2031 <= q05)%Q /\ (q05 <= inject_Z 2052)%Q /\
    (inject_Z 2031 <= q95)%Q /\ (q95 <= inject_Z 2052)%Q.
Proof.
  apply (summary_within_range_of_years [2040; 2031; 2052]%Z 2031 2052).
  - discriminate.
  - intros y Hy. elem_cases Hy; lia.
Defined.

(** ** What the table cell needs from the namespace *)

Lemma bind_vars_get {B} (name : string) (k : list Z -> cell B) (ns : namespace) :
  bind (vars_get name) k ns =
    match ns !! name with
    | Some l => k l ns
    | None => (ns, inl KeyError)
    end.
Proof. unfold bind, vars_get. destruct (ns !! name); reflexivity. Qed.

Lemma table_cell_unbound (cmip6_models : list string) (temps0 : list pynum)
    (ns : namespace) (temp : pynum) :
  temp ∈ temps -> ns !! firstyear_rolling temp = None ->
  (table_cell cmip6_models temps0 ns).2 = inl KeyError.
Proof.
  intros Ht Hnone. unfold table_cell.
  elem_cases Ht;
    repeat (rewrite bind_vars_get;
            first [rewrite Hnone; reflexivity
                  |match goal with
                   | |- context [ns !! ?k] => destruct (ns !! k); [|reflexivity]
                   end]).
Qed.

Lemma table_cell_bound (cmip6_models : list string) (temps0 : list pynum)
    (ns : namespace) (a1 a2 a3 a4 a5 : list Z) :
  ns !! firstyear_rolling py1 = Some a1 ->
  ns !! firstyear_rolling py1_5 = Some a2 ->
  ns !! firstyear_rolling py2 = Some a3 ->
  ns !! firstyear_rolling py2_5 = Some a4 ->
  ns !! firstyear_rolling py3 = Some a5 ->
  (table_cell cmip6_models temps0 ns).2 =
    if forallb (fun b => length b =? length a1) [a2; a3; a4; a5]
       && ((length cmip6_models =? length a1) && (length temps0 =? 5))
    then inr (sort_index
                {| columns := temps0;
                   rows := zip cmip6_models (elems (T (NdArray (5, length a1)
                                                         [a1; a2; a3; a4; a5]))) |})
    else inl ValueError.
Proof.
  intros H1 H2 H3 H4 H5. unfold table_cell.
  rewrite bind_vars_get, H1, bind_vars_get, H2, bind_vars_get, H3,
    bind_vars_get, H4, bind_vars_get, H5.
  unfold bind at 1. unfold lift at 1. unfold np_vstack.
  destruct (forallb (fun b => length b =? length a1) [a2; a3; a4; a5]);
    [|reflexivity].
  unfold bind, lift, pd_DataFrame, T. cbn [shape elems fst snd length andb].
  destruct ((length cmip6_models =? length a1) && (length temps0 =? 5));
    reflexivity.
Qed.

Lemma zip_fst_Permutation (index : list string) (data : list (list Z)) :
  length index = length data ->
  (merge_sort index_le (zip index data)).*1 ≡ₚ index.
Proof.
  intros Hlen. rewrite merge_sort_Permutation.
  rewrite fst_zip by lia. reflexivity.
Qed.

(** The table cell reads the five lists named for 1, 1.5, 2, 2.5 and 3 from
    the namespace, whatever the thresholds of the last loop were.  It raises
    [KeyError] when one of them is not bound; when all are bound it writes a
    table exactly when each list has one entry per model name and five
    column labels are given, and raises [ValueError] otherwise.  The table
    written has the given columns and one row for each model name. *)
Theorem table_cell_outcome (cmip6_models : list string) (temps0 : list pynum)
    (ns : namespace) :
  ((exists temp, temp ∈ temps /\ ns !! firstyear_rolling temp = None) ->
     (table_cell cmip6_models temps0 ns).2 = inl KeyError) /\
  (forall lists : pynum -> list Z,
     (forall temp, temp ∈ temps -> ns !! firstyear_rolling temp = Some (lists temp)) ->
     if decide (length temps0 = 5 /\
                Forall (fun temp => length (lists temp) = length cmip6_models) temps)
     then exists df,
            (table_cell cmip6_models temps0 ns).2 = inr df /\
            columns df = temps0 /\ (rows df).*1 ≡ₚ cmip6_models
     else (table_cell cmip6_models temps0 ns).2 = inl ValueError).
Proof.
  split.
  - intros (temp & Ht & Hnone). eapply table_cell_unbound; eassumption.
  - intros lists Hb.
    rewrite (table_cell_bound cmip6_models temps0 ns
               (lists py1) (lists py1_5) (lists py2) (lists py2_5) (lists py3))
      by (apply Hb; unfold temps; set_solver).
    destruct (decide _) as [[H5 Hall]|Hno].
    + unfold temps in Hall. rewrite !Forall_cons in Hall.
      destruct Hall as (L1 & L2 & L3 & L4 & L5 & _).
      cbn [forallb]. rewrite L1, L2, L3, L4, L5, H5, !Nat.eqb_refl. cbn [andb].
      eexists. split; [reflexivity|]. split; [reflexivity|].
      cbn [sort_index rows]. apply zip_fst_Permutation.
      unfold T. cbn [elems shape snd]. rewrite length_fmap, length_seq. reflexivity.
    + destruct (forallb _ _ && _) eqn:Hok; [|reflexivity].
      exfalso. apply Hno. cbn [forallb] in Hok.
      rewrite !andb_true_iff, !Nat.eqb_eq in Hok.
      destruct Hok as [(E2 & E3 & E4 & E5 & _) [Em Et]].
      split; [exact Et|]. unfold temps. repeat constructor; congruence.
Qed.

Lemma table_cell_outcome_witness :
  (table_cell ["ACCESS-CM2"] temps ∅).2 = inl KeyError.
Proof.
  refine (proj1 (table_cell_outcome ["ACCESS-CM2"] temps ∅) _).
  exists py1. split; [apply list_elem_of_here|reflexivity].
Defined.

(** ** The namespace after a run that raises *)

Lemma gathered_stops (W : nat) (temp : Q)
    (before : list (string * list (Z * Q))) (model : string * list (Z * Q))
    (after : list (string * list (Z * Q))) (e : exn) :
  (forall m, m ∈ before -> exists year, first_crossing_year W m.2 temp = inr year) ->
  first_crossing_year W model.2 temp = inl e ->
  gathered W temp (before ++ model :: after) =
    ((fun m => crossing_year W temp m.2) <$> before, inl ValueError).
Proof.
  intros Hall He. pose proof (first_crossing_year_error _ _ _ _ He) as ->.
  induction before as [|m before IH]; simpl.
  - rewrite He. reflexivity.
  - destruct (Hall m (list_elem_of_here _ _)) as [year Hy].
    unfold crossing_year at 1. rewrite Hy, IH; [reflexivity|].
    intros m' Hm'. apply Hall, list_elem_of_further, Hm'.
Qed.

Lemma bindings_app_inr (W : nat) (done rest : list pynum)
    (cmip6 : list (string * list (Z * Q))) :
  (bindings W done cmip6).2 = inr tt ->
  bindings W (done ++ rest) cmip6 =
    ((bindings W done cmip6).1 ++ (bindings W rest cmip6).1,
     (bindings W rest cmip6).2).
Proof.
  induction done as [|t done IH]; simpl; intros Hd.
  - destruct (bindings W rest cmip6). reflexivity.
  - destruct (gathered W (num t) cmip6) as [years [e|[]]]; simpl in *; [discriminate|].
    destruct (bindings W done cmip6) as [bs r] eqn:Hb. simpl in *.
    rewrite IH by exact Hd. simpl.
    destruct (bindings W rest cmip6). reflexivity.
Qed.

Lemma rebind_app (bs1 bs2 : list (string * list Z)) (ns : namespace) :
  rebind (bs1 ++ bs2) ns = rebind bs2 (rebind bs1 ns).
Proof. unfold rebind. apply foldl_app. Qed.

(** When the first pair that does not reach is threshold [temp] with model
    [model], the loop raises [ValueError] and leaves the namespace of a
    complete loop over the thresholds before [temp], except that the list of
    [temp] holds the years of the models before [model]; the lists of the
    later thresholds are not rebound. *)
Theorem loop_stops_at_first_unreached (W : nat)
    (done : list pynum) (temp : pynum) (rest : list pynum)
    (before : list (string * list (Z * Q))) (model : string * list (Z * Q))
    (after : list (string * list (Z * Q))) (e : exn) (ns : namespace) :
  all_reach W done (before ++ model :: after) ->
  (forall m, m ∈ before ->
     exists year, first_crossing_year W m.2 (num temp) = inr year) ->
  first_crossing_year W model.2 (num temp) = inl e ->
  firstyear_rolling_loop W (done ++ temp :: rest) (before ++ model :: after) ns =
    (<[firstyear_rolling temp :=
         (fun m => crossing_year W (num temp) m.2) <$> before]>
       (firstyear_rolling_loop W done (before ++ model :: after) ns).1,
     inl ValueError).
Proof.
  intros Hdone Hbefore He. rewrite !loop_bindings.
  rewrite bindings_app_inr by (rewrite bindings_all by exact Hdone; reflexivity).
  cbn [bindings]. rewrite (gathered_stops W (num temp) before model after e Hbefore He).
  cbn [fst snd]. rewrite rebind_app. reflexivity.
Qed.

Lemma loop_stops_at_first_unreached_witness :
  firstyear_rolling_loop 3 ([py1] ++ py1_5 :: [py2])
    ([("A", rising)] ++ ("B", years_from 2000 [1; 1; 1]%Q) :: [("C", rising)]) ∅ =
    (<[firstyear_rolling py1_5 :=
         (fun m : string * list (Z * Q) => crossing_year 3 (num py1_5) m.2)
           <$> [("A", rising)]]>
       (firstyear_rolling_loop 3 [py1]
          ([("A", rising)] ++ ("B", years_from 2000 [1; 1; 1]%Q) :: [("C", rising)]) ∅).1,
     inl ValueError).
Proof.
  apply (loop_stops_at_first_unreached 3 [py1] py1_5 [py2]
           [("A", rising)] ("B", years_from 2000 [1; 1; 1]%Q) [("C", rising)]
           ValueError ∅).
  - intros t m Ht Hm. elem_cases Ht; elem_cases Hm; eexists; vm_compute; reflexivity.
  - intros m Hm. elem_cases Hm. eexists. vm_compute. reflexivity.
  - vm_compute. reflexivity.
Defined.

(** * From temperatures to anomalies *)

Lemma sel_years_fmap {A B} (f : Z * A -> Z * B) (lo hi : Z) (da : list (Z * A)) :
  (forall x, (f x).1 = x.1) ->
  sel_years lo hi (f <$> da) = f <$> sel_years lo hi da.
Proof.
  intros Hf. unfold sel_years. induction da as [|x da IH]; [reflexivity|].
  rewrite fmap_cons, !filter_cons, Hf, IH.
  destruct (decide (lo <= x.1 <= hi)%Z); reflexivity.
Qed.

(** With a baseline, the anomalies are the values less the baseline mean,
    over the years 1850 to 2100. *)
Lemma cmip6_gmtm_anom_baseline (gmtm : list (Z * Q)) (b : Q) :
  mean_year (sel_years 1850 1899 gmtm) = Some b ->
  cmip6_gmtm_anom gmtm =
    (fun yv : Z * Q => (yv.1, Some (yv.2 - b)%Q)) <$> sel_years 1850 2100 gmtm.
Proof.
  intros Hb. unfold cmip6_gmtm_anom. rewrite Hb. cbn [fmap option_fmap option_map].
  apply sel_years_fmap. reflexivity.
Qed.

Lemma cmip6_gmtm_anom_no_baseline (gmtm : list (Z * Q)) :
  mean_year (sel_years 1850 1899 gmtm) = None ->
  cmip6_gmtm_anom gmtm =
    (fun yv : Z * Q => (yv.1, None)) <$> sel_years 1850 2100 gmtm.
Proof.
  intros Hb. unfold cmip6_gmtm_anom. rewrite Hb. cbn [fmap option_fmap option_map].
  apply sel_years_fmap. reflexivity.
Qed.

Lemma mean_year_nonempty (da : list (Z * Q)) :
  da <> [] -> mean_year da = Some (Qmean (da.*2)).
Proof. destruct da; [congruence|reflexivity]. Qed.

Lemma numbers_all_defined (da : list (Z * Q)) (f : Q -> Q) :
  numbers ((fun yv : Z * Q => (yv.1, Some (f yv.2))) <$> da)
  = Some ((fun yv : Z * Q => (yv.1, f yv.2)) <$> da).
Proof.
  unfold numbers. apply mapM_Some. apply Forall2_fmap, Forall_Forall2_diag, Forall_forall.
  intros yv _. reflexivity.
Qed.

(** The anomalies cover the model's years from 1850 to 2100, in order.  They
    are all numbers when the model has a value in some year from 1850 to
    1899, and all NaN when it has none. *)
Theorem anomaly_defined_iff_baseline (gmtm : list (Z * Q)) :
  (cmip6_gmtm_anom gmtm).*1 = (sel_years 1850 2100 gmtm).*1 /\
  (sel_years 1850 1899 gmtm <> [] ->
     exists anom, numbers (cmip6_gmtm_anom gmtm) = Some anom) /\
  (sel_years 1850 1899 gmtm = [] ->
     forall yv, yv ∈ cmip6_gmtm_anom gmtm -> yv.2 = None).
Proof.
  split; [|split].
  - unfold cmip6_gmtm_anom. rewrite sel_years_fmap by reflexivity.
    rewrite <- list_fmap_compose. reflexivity.
  - intros Hne. pose proof (mean_year_nonempty _ Hne) as Hb.
    rewrite (cmip6_gmtm_anom_baseline _ _ Hb).
    rewrite (numbers_all_defined _ (fun x => x - _)%Q). eauto.
  - intros Hnil yv Hin.
    rewrite cmip6_gmtm_anom_no_baseline in Hin by (rewrite Hnil; reflexivity).
    apply list_elem_of_fmap in Hin as (x & -> & _). reflexivity.
Qed.

Lemma anomaly_defined_iff_baseline_witness :
  (cmip6_gmtm_anom (years_from 1950 [14; 15]%Q)).*1
  = (sel_years 1850 2100 (years_from 1950 [14; 15]%Q)).*1.
Proof.
  exact (proj1 (anomaly_defined_iff_baseline (years_from 1950 [14; 15]%Q))).
Defined.

(** * The global mean *)

(** ** The observations: missing cells *)

Lemma omap_id_concat {A} (g : list (list (option A))) :
  omap id (concat g) = concat ((fun r : list (option A) => omap id r) <$> g).
Proof.
  induction g as [|r g IH]; [reflexivity|].
  simpl. rewrite omap_app, IH. reflexivity.
Qed.

Lemma row_weights_present (w : Q) (r : list (option Q)) :
  omap id ((fun x : option Q => (fun _ => w) <$> x) <$> r)
  = (fun _ => w) <$> omap id r.
Proof.
  induction r as [|[x|] r IH]; [reflexivity|..]; csimpl; rewrite IH; reflexivity.
Qed.

Lemma row_weighted_present (w : Q) (r : list (option Q)) :
  omap id ((fun x : option Q => Qmult w <$> x) <$> r)
  = (fun x => w * x)%Q <$> omap id r.
Proof.
  induction r as [|[x|] r IH]; [reflexivity|..]; csimpl; rewrite IH; reflexivity.
Qed.

Lemma nansum_weights (da : list (Q * list (option Q))) :
  nansum (weights_where_notnull da) = grid_sum (broadcast_weights (present_cells da)).
Proof.
  unfold nansum, grid_sum. rewrite omap_id_concat. f_equal. f_equal.
  unfold weights_where_notnull, broadcast_weights, present_cells.
  rewrite <- !list_fmap_compose. apply list_fmap_ext.
  intros _ row _. simpl. apply row_weights_present.
Qed.

Lemma nansum_weighted (da : list (Q * list (option Q))) :
  nansum (weighted_where_notnull da) = grid_sum (weighted (present_cells da)).
Proof.
  unfold nansum, grid_sum. rewrite omap_id_concat. f_equal. f_equal.
  unfold weighted_where_notnull, weighted, present_cells.
  rewrite <- !list_fmap_compose. apply list_fmap_ext.
  intros _ row _. simpl. apply row_weighted_present.
Qed.

Lemma omap_id_all_missing (r : list (option Q)) :
  (forall x, x ∈ r -> x = None) -> omap id r = [].
Proof.
  induction r as [|x r IH]; intros Hnone; [reflexivity|].
  rewrite (Hnone x (list_elem_of_here _ _)). csimpl.
  apply IH. intros y Hy. apply Hnone, list_elem_of_further, Hy.
Qed.

Lemma omap_id_all_present (r : list Q) : omap id (Some <$> r) = r.
Proof.
  induction r as [|x r IH]; [reflexivity|]. csimpl. rewrite IH. reflexivity.
Qed.

Lemma grid_sum_empty_rows {A} (da : list A) :
  grid_sum ((fun _ => []) <$> da) = 0%Q.
Proof. induction da as [|r da IH]; [reflexivity|exact IH]. Qed.

Lemma gmt2m_noaa_present (da : list (Q * list (option Q))) :
  gmt2m_noaa da = gmt2m (present_cells da).
Proof.
  unfold gmt2m_noaa, gmt2m. rewrite nansum_weights, nansum_weighted. reflexivity.
Qed.

(** The global mean of the observations is the weighted mean over the cells
    that have data: a missing cell counts neither in the weighted sum nor in
    the sum of the weights.  With no missing cell it is the formula used for
    the models, and with no cell that has data it is not a number. *)
Theorem gmt2m_noaa_over_present_cells (da : list (Q * list (option Q))) :
  gmt2m_noaa da = gmt2m (present_cells da) /\
  (forall full : list (Q * list Q),
     da = (fun row : Q * list Q => (row.1, Some <$> row.2)) <$> full ->
     gmt2m_noaa da = gmt2m full) /\
  ((forall row x, row ∈ da -> x ∈ row.2 -> x = None) -> gmt2m_noaa da = None).
Proof.
  pose proof (gmt2m_noaa_present da) as Hp.
  split; [exact Hp|]. split.
  - intros full ->. rewrite Hp. f_equal.
    unfold present_cells. rewrite <- list_fmap_compose.
    rewrite <- (list_fmap_id full) at 2. apply list_fmap_ext.
    intros _ [w r] _. simpl. f_equal. apply omap_id_all_present.
  - intros Hnone. rewrite Hp. unfold gmt2m.
    replace (broadcast_weights (present_cells da))
      with ((fun _ : Q * list (option Q) => @nil Q) <$> da).
    + rewrite grid_sum_empty_rows. reflexivity.
    + unfold broadcast_weights, present_cells. rewrite <- list_fmap_compose.
      apply list_fmap_ext. intros i row Hrow. simpl.
      apply list_elem_of_lookup_2 in Hrow.
      rewrite omap_id_all_missing; [reflexivity|].
      intros x Hx. exact (Hnone row x Hrow Hx).
Qed.

Lemma gmt2m_noaa_over_present_cells_witness :
  gmt2m_noaa [((1 # 2)%Q, [None; None]); (1%Q, [None; None])] = None.
Proof.
  refine (proj2 (proj2 (gmt2m_noaa_over_present_cells
                          [((1 # 2)%Q, [None; None]); (1%Q, [None; None])])) _).
  intros row x Hrow Hx. elem_cases Hrow; elem_cases Hx; reflexivity.
Defined.

(** * The NetCDF link *)

Lemma endswith_spec (s suffix : string) :
  endswith s suffix = true <-> exists p, s = p +:+ suffix.
Proof.
  split.
  - induction s as [|c s IH]; cbn [endswith]; rewrite orb_true_iff.
    + intros [H|H]; [|discriminate]. apply String.eqb_eq in H. exists "". exact H.
    + intros [H|H].
      * apply String.eqb_eq in H. exists "". exact H.
      * destruct (IH H) as [p ->]. exists (String c p). reflexivity.
  - intros [p ->]. induction p as [|c p IH].
    + change ("" +:+ suffix) with suffix.
      destruct suffix; cbn [endswith]; rewrite String.eqb_refl; reflexivity.
    + change (String c p +:+ suffix) with (String c (p +:+ suffix)).
      cbn [endswith]. rewrite IH. apply orb_true_r.
Qed.

Lemma find_nc_file_Some (hrefs : list (option string)) (h : string) :
  find_nc_file hrefs = Some h <->
  exists i,
    hrefs !! i = Some (Some h) /\ endswith h ".nc" = true /\
    forall j h', j < i -> hrefs !! j = Some (Some h') -> endswith h' ".nc" = false.
Proof.
  assert (forall x, endswith x ".nc" = true -> negb (String.eqb x "") = true) as Hne.
  { intros x Hx. destruct x; [discriminate|reflexivity]. }
  induction hrefs as [|href rest IH]; simpl.
  - split; [discriminate|]. intros (i & Hi & _). rewrite lookup_nil in Hi. discriminate.
  - destruct href as [x|].
    + destruct (endswith x ".nc") eqn:Hx.
      * rewrite (Hne x Hx). simpl. split.
        -- intros [= <-]. exists 0. split; [reflexivity|]. split; [exact Hx|].
           intros j h' Hj. lia.
        -- intros ([|i] & Hi & Hh & Hfirst).
           ++ simpl in Hi. congruence.
           ++ specialize (Hfirst 0 x ltac:(lia) eq_refl). congruence.
      * rewrite andb_false_r, IH. split.
        -- intros (i & Hi & Hh & Hfirst). exists (S i). split; [exact Hi|].
           split; [exact Hh|]. intros [|j] h' Hj Hl.
           ++ simpl in Hl. congruence.
           ++ apply (Hfirst j); [lia|exact Hl].
        -- intros ([|i] & Hi & Hh & Hfirst).
           ++ simpl in Hi. congruence.
           ++ exists i. split; [exact Hi|]. split; [exact Hh|].
              intros j h' Hj Hl. apply (Hfirst (S j)); [lia|exact Hl].
    + rewrite IH. split.
      * intros (i & Hi & Hh & Hfirst). exists (S i). split; [exact Hi|].
        split; [exact Hh|]. intros [|j] h' Hj Hl.
        -- simpl in Hl. congruence.
        -- apply (Hfirst j); [lia|exact Hl].
      * intros ([|i] & Hi & Hh & Hfirst).
        -- simpl in Hi. congruence.
        -- exists i. split; [exact Hi|]. split; [exact Hh|].
           intros j h' Hj Hl. apply (Hfirst (S j)); [lia|exact Hl].
Qed.

Lemma find_nc_file_None (hrefs : list (option string)) :
  find_nc_file hrefs = None <->
  forall h, Some h ∈ hrefs -> endswith h ".nc" = false.
Proof.
  induction hrefs as [|href rest IH]; simpl.
  - split; [|reflexivity]. intros _ h Hh. inversion Hh.
  - destruct href as [x|].
    + destruct (endswith x ".nc") eqn:Hx.
      * replace (negb (String.eqb x "")) with true
          by (destruct x; [discriminate|reflexivity]).
        simpl. split; [discriminate|].
        intros H. specialize (H x (list_elem_of_here _ _)). congruence.
      * rewrite andb_false_r, IH. split.
        -- intros H h Hh. apply elem_of_cons in Hh as [[= ->]|Hh]; auto.
        -- intros H h Hh. apply H, list_elem_of_further, Hh.
    + rewrite IH. split.
      * intros H h Hh. apply elem_of_cons in Hh as [[=]|Hh]; auto.
      * intros H h Hh. apply H, list_elem_of_further, Hh.
Qed.

(** The file chosen is the [href] of the first link whose [href] ends in
    [.nc] (links without an [href] are passed over), and no file is chosen
    exactly when no link has such an [href]. *)
Theorem first_nc_link_is_chosen (hrefs : list (option string)) :
  (forall h,
     find_nc_file hrefs = Some h <->
     exists i,
       hrefs !! i = Some (Some h) /\ (exists p, h = p +:+ ".nc") /\
       forall j h', j < i -> hrefs !! j = Some (Some h') ->
                    ~ exists p, h' = p +:+ ".nc") /\
  (find_nc_file hrefs = None <->
   forall h, Some h ∈ hrefs -> ~ exists p, h = p +:+ ".nc").
Proof.
  assert (forall x, endswith x ".nc" = false <-> ~ exists p, x = p +:+ ".nc") as Hno.
  { intros x. rewrite <- endswith_spec.
    destruct (endswith x ".nc"); split; congruence. }
  split.
  - intros h. rewrite find_nc_file_Some. split.
    + intros (i & Hi & Hh & Hfirst). exists i. split; [exact Hi|].
      split; [apply endswith_spec, Hh|].
      intros j h' Hj Hl. apply Hno. eapply Hfirst; eassumption.
    + intros (i & Hi & Hh & Hfirst). exists i. split; [exact Hi|].
      split; [apply endswith_spec, Hh|].
      intros j h' Hj Hl. apply Hno. eapply Hfirst; eassumption.
  - rewrite find_nc_file_None. split; intros H h Hh; apply Hno, H, Hh.
Qed.

Lemma endswith_false (s suffix : string) :
  endswith s suffix = false -> ~ exists p, s = p +:+ suffix.
Proof. intros H Hp. apply endswith_spec in Hp. congruence. Qed.

Lemma first_nc_link_is_chosen_witness :
  find_nc_file [None; Some "../"; Some "NOAAGlobalTemp_v6.nc"; Some "old.nc"]
  = Some "NOAAGlobalTemp_v6.nc".
Proof.
  apply (proj1 (first_nc_link_is_chosen
                  [None; Some "../"; Some "NOAAGlobalTemp_v6.nc"; Some "old.nc"])).
  exists 2. split; [reflexivity|]. split; [exists "NOAAGlobalTemp_v6"; reflexivity|].
  intros j h' Hj Hl. apply endswith_false.
  destruct j as [|[|j]]; [discriminate| |lia].
  injection Hl as <-. reflexivity.
Defined.

Lemma split_not_nil (sep : ascii) (s : string) : split sep s <> [].
Proof.
  destruct s as [|c s]; simpl; [discriminate|].
  destruct (Ascii.eqb c sep); [discriminate|].
  destruct (split sep s); discriminate.
Qed.

Lemma free_of_String (sep c : ascii) (s : string) :
  free_of sep (String c s) <-> sep <> c /\ free_of sep s.
Proof. unfold free_of. simpl. rewrite not_elem_of_cons. reflexivity. Qed.

Lemma split_free_of (sep : ascii) (s : string) :
  free_of sep s -> split sep s = [s].
Proof.
  induction s as [|c s IH]; [reflexivity|].
  rewrite free_of_String. intros [Hc Hs]. simpl.
  destruct (Ascii.eqb_spec c sep) as [->|_]; [congruence|].
  rewrite (IH Hs). reflexivity.
Qed.

Lemma string_app_assoc (a b c : string) : (a +:+ b) +:+ c = a +:+ (b +:+ c).
Proof.
  induction a as [|x a IH]; [reflexivity|].
  change (String x ((a +:+ b) +:+ c) = String x (a +:+ (b +:+ c))).
  f_equal. exact IH.
Qed.

Lemma split_with_separator (sep : ascii) (dir f : string) :
  exists p p' ps, split sep (dir +:+ String sep f) = p :: p' :: ps.
Proof.
  induction dir as [|x dir (p & p' & ps & IH)].
  - change ("" +:+ String sep f) with (String sep f). cbn [split].
    rewrite Ascii.eqb_refl. pose proof (split_not_nil sep f) as Hne.
    destruct (split sep f) as [|q qs]; [congruence|]. eauto.
  - change (String x dir +:+ String sep f) with (String x (dir +:+ String sep f)).
    cbn [split]. rewrite IH. destruct (Ascii.eqb x sep); eauto.
Qed.

(** The last piece has no separator in it, and the string is that piece
    alone or ends with the separator followed by that piece. *)
Lemma last_split_decompose (sep : ascii) (s : string) :
  exists f,
    last (split sep s) = Some f /\ free_of sep f /\
    (s = f \/ exists dir, s = dir +:+ String sep f).
Proof.
  induction s as [|c s (f & Hlast & Hfree & Hs)].
  - exists "". split; [reflexivity|]. split; [|left; reflexivity].
    unfold free_of. simpl. apply not_elem_of_nil.
  - simpl. destruct (Ascii.eqb_spec c sep) as [->|Hc].
    + exists f. split.
      * destruct (split sep s) as [|p ps] eqn:Hsp; [discriminate|].
        rewrite last_cons_cons. exact Hlast.
      * split; [exact Hfree|]. right.
        destruct Hs as [->|[dir ->]]; [exists ""|exists (String sep dir)]; reflexivity.
    + destruct Hs as [->|[dir ->]].
      * rewrite (split_free_of sep f Hfree). exists (String c f).
        split; [reflexivity|].
        split; [apply free_of_String; split; [congruence|exact Hfree]|].
        left. reflexivity.
      * destruct (split_with_separator sep dir f) as (p & p' & ps & Hsp).
        rewrite Hsp in Hlast |- *. exists f.
        split; [rewrite last_cons_cons in *; exact Hlast|].
        split; [exact Hfree|]. right. exists (String c dir). reflexivity.
Qed.

Lemma endswith_refl (s : string) : endswith s s = true.
Proof. destruct s; cbn [endswith]; rewrite String.eqb_refl; reflexivity. Qed.

Lemma last_split_endswith (sep : ascii) (suffix s : string) :
  suffix <> "" -> free_of sep suffix ->
  endswith s suffix = true ->
  exists f, last (split sep s) = Some f /\ endswith f suffix = true.
Proof.
  intros Hne Hfree. induction s as [|c s IH]; cbn [endswith]; rewrite orb_true_iff.
  - intros [H|H]; [|discriminate]. apply String.eqb_eq in H. congruence.
  - intros [H|H].
    + apply String.eqb_eq in H. rewrite H, (split_free_of sep suffix Hfree).
      exists suffix. split; [reflexivity|apply endswith_refl].
    + destruct (IH H) as (f & Hlast & Hf). simpl.
      destruct (Ascii.eqb c sep).
      * exists f. split; [|exact Hf].
        destruct (split sep s) as [|p ps]; [discriminate|].
        rewrite last_cons_cons. exact Hlast.
      * destruct (split sep s) as [|p [|p' ps]]; [discriminate|..].
        -- simpl in Hlast. injection Hlast as ->. exists (String c f).
           split; [reflexivity|]. cbn [endswith]. rewrite Hf. apply orb_true_r.
        -- exists f. split; [|exact Hf]. rewrite !last_cons_cons in *. exact Hlast.
Qed.

Lemma nc_suffix_free_of_slash : free_of "/" ".nc".
Proof.
  unfold free_of.
  apply (bool_decide_unpack ("/"%char ∉ list_ascii_of_string ".nc")).
  vm_compute. exact I.
Qed.

(** When a file is chosen, the name it is saved under is the part of the
    [href] after its last slash: it has no slash in it, it ends in [.nc], and
    the address fetched ends with it.  Taking the last piece never fails,
    and nothing is downloaded exactly when no file was chosen. *)
Theorem saved_name_is_last_path_piece (base_url : string)
    (hrefs : list (option string)) :
  noaa_cell base_url hrefs <> IndexError /\
  (noaa_cell base_url hrefs = NoNetCDF <-> find_nc_file hrefs = None) /\
  forall nc_url filename,
    noaa_cell base_url hrefs = Download nc_url filename ->
    (exists p, filename = p +:+ ".nc") /\
    free_of "/" filename /\
    exists dir,
      nc_url = base_url +:+ dir +:+ filename /\
      (dir = "" \/ exists d, dir = d +:+ "/").
Proof.
  unfold noaa_cell. destruct (find_nc_file hrefs) as [nc_file|] eqn:Hfind.
  - apply find_nc_file_Some in Hfind as (_ & _ & Hends & _).
    assert (negb (String.eqb nc_file "") = true) as ->
      by (destruct nc_file; [discriminate|reflexivity]).
    destruct (last_split_decompose "/" nc_file) as (f & Hlast & Hfree & Hs).
    destruct (last_split_endswith "/" ".nc" nc_file) as (f' & Hlast' & Hf');
      [discriminate|exact nc_suffix_free_of_slash|exact Hends|].
    rewrite Hlast in Hlast' |- *. injection Hlast' as <-.
    split; [discriminate|]. split; [split; discriminate|].
    intros nc_url filename [= <- <-].
    split; [apply endswith_spec, Hf'|]. split; [exact Hfree|].
    destruct Hs as [->|[dir ->]].
    + exists "". split; [reflexivity|left; reflexivity].
    + exists (dir +:+ "/"). split; [|right; eauto].
      f_equal. rewrite string_app_assoc. reflexivity.
  - split; [discriminate|]. split; [split; reflexivity|]. discriminate.
Qed.

Lemma saved_name_is_last_path_piece_witness :
  (exists p, "NOAAGlobalTemp_v6.nc" = p +:+ ".nc") /\
  free_of "/" "NOAAGlobalTemp_v6.nc" /\
  exists dir,
    "https://host/gridded/./files/NOAAGlobalTemp_v6.nc"
      = "https://host/gridded/" +:+ dir +:+ "NOAAGlobalTemp_v6.nc" /\
    (dir = "" \/ exists d, dir = d +:+ "/").
Proof.
  refine (proj2 (proj2 (saved_name_is_last_path_piece "https://host/gridded/"
             [None; Some "../"; Some "./files/NOAAGlobalTemp_v6.nc"; Some "b.nc"]))
            _ _ _).
  reflexivity.
Defined.

(** * Loading the models *)

Section loading.
Context {D R : Type} (source_id : D -> string) (gmt2m_of : D -> D -> R).

Lemma matches_cons (h s : D) (ssps : list D) :
  matches source_id h (s :: ssps) =
    if String.eqb (source_id s) (source_id h)
    then s :: matches source_id h ssps
    else matches source_id h ssps.
Proof.
  unfold matches. rewrite filter_cons.
  destruct (String.eqb_spec (source_id s) (source_id h)) as [Heq|Hne];
    destruct (decide (source_id s = source_id h)); congruence.
Qed.

Lemma match_ssp_first (h : D) (ssps : list D) (names : list string)
    (rows : option (list R)) :
  match_ssp source_id gmt2m_of 0 h ssps (names, rows) =
    ((names ++ (source_id <$> matches source_id h ssps),
      match last (matches source_id h ssps) with
      | Some s => Some [gmt2m_of h s]
      | None => rows
      end), Loaded).
Proof.
  revert names rows. induction ssps as [|s ssps IH]; intros names rows.
  - simpl. rewrite app_nil_r. reflexivity.
  - cbn [match_ssp]. rewrite matches_cons.
    destruct (String.eqb (source_id s) (source_id h)).
    + cbn [Nat.eqb fst snd]. rewrite IH, fmap_cons, <- app_assoc. cbn [app].
      f_equal. f_equal.
      destruct (matches source_id h ssps) as [|s' ms]; [reflexivity|].
      rewrite last_cons_cons.
      destruct (last (s' :: ms)) eqn:Hl; [reflexivity|].
      apply last_None in Hl. discriminate.
    + apply IH.
Qed.

Lemma match_ssp_later_bound (hii : nat) (h : D) (ssps : list D)
    (names : list string) (rows : list R) :
  hii <> 0 ->
  match_ssp source_id gmt2m_of hii h ssps (names, Some rows) =
    ((names ++ (source_id <$> matches source_id h ssps),
      Some (rows ++ (gmt2m_of h <$> matches source_id h ssps))), Loaded).
Proof.
  intros Hh. revert names rows.
  induction ssps as [|s ssps IH]; intros names rows.
  - simpl. rewrite !app_nil_r. reflexivity.
  - cbn [match_ssp]. rewrite matches_cons.
    destruct (String.eqb (source_id s) (source_id h)).
    + destruct (Nat.eqb_spec hii 0) as [|_]; [congruence|]. cbn [fst snd].
      rewrite IH, !fmap_cons, <- !app_assoc. reflexivity.
    + apply IH.
Qed.

Lemma match_ssp_later_unbound (hii : nat) (h : D) (ssps : list D)
    (names : list string) :
  hii <> 0 ->
  match_ssp source_id gmt2m_of hii h ssps (names, None) =
    match matches source_id h ssps with
    | [] => ((names, None), Loaded)
    | s :: _ => ((names ++ [source_id s], None), NameError)
    end.
Proof.
  intros Hh. induction ssps as [|s ssps IH]; [reflexivity|].
  cbn [match_ssp]. rewrite matches_cons.
  destruct (String.eqb (source_id s) (source_id h)); [|exact IH].
  destruct (Nat.eqb_spec hii 0) as [|_]; [congruence|]. reflexivity.
Qed.

Lemma matching_pairs_cons (h : D) (hs ssps : list D) :
  matching_pairs source_id (h :: hs) ssps =
    ((fun s => (h, s)) <$> matches source_id h ssps)
    ++ matching_pairs source_id hs ssps.
Proof. reflexivity. Qed.

Lemma load_from_bound (hii : nat) (hs ssps : list D) (names : list string)
    (rows : list R) :
  hii <> 0 ->
  load_from source_id gmt2m_of hii hs ssps (names, Some rows) =
    ((names ++ ((fun p => source_id p.2) <$> matching_pairs source_id hs ssps),
      Some (rows ++ ((fun p => gmt2m_of p.1 p.2)
                        <$> matching_pairs source_id hs ssps))), Loaded).
Proof.
  revert hii names rows. induction hs as [|h hs IH]; intros hii names rows Hh.
  - simpl. rewrite !app_nil_r. reflexivity.
  - cbn [load_from]. rewrite match_ssp_later_bound by exact Hh.
    rewrite IH by lia. rewrite matching_pairs_cons, !fmap_app, <- !list_fmap_compose.
    rewrite <- !app_assoc. reflexivity.
Qed.

Lemma load_from_unbound (hii : nat) (hs ssps : list D) (names : list string) :
  hii <> 0 ->
  load_from source_id gmt2m_of hii hs ssps (names, None) =
    match matching_pairs source_id hs ssps with
    | [] => ((names, None), Loaded)
    | p :: _ => ((names ++ [source_id p.2], None), NameError)
    end.
Proof.
  revert hii. induction hs as [|h hs IH]; intros hii Hh; [reflexivity|].
  cbn [load_from]. rewrite match_ssp_later_unbound by exact Hh.
  rewrite matching_pairs_cons.
  destruct (matches source_id h ssps) as [|s ms]; [|reflexivity].
  cbn [fmap list_fmap app]. apply IH. lia.
Qed.

(** When the first historical dataset has exactly one scenario dataset of
    its model, the cell ends with one name and one row for each pair of
    datasets of one model, names and rows in the same order, whatever
    [cmip6_gmtm] was bound to before. *)
Theorem names_and_rows_aligned (h0 s0 : D) (hs ssps : list D)
    (prior : option (list R)) :
  matches source_id h0 ssps = [s0] ->
  load_models source_id gmt2m_of (h0 :: hs) ssps prior =
    (((fun p => source_id p.2) <$> matching_pairs source_id (h0 :: hs) ssps,
      Some ((fun p => gmt2m_of p.1 p.2)
              <$> matching_pairs source_id (h0 :: hs) ssps)), Loaded).
Proof.
  intros Hm. unfold load_models. cbn [load_from].
  rewrite match_ssp_first, Hm. cbn [last fmap list_fmap app].
  rewrite load_from_bound by lia.
  rewrite matching_pairs_cons, Hm. reflexivity.
Qed.

(** When the first historical dataset has no scenario dataset of its model,
    the rows are not started afresh: with [cmip6_gmtm] not bound the cell
    stops with [NameError] at the first pair it meets, the name of that
    model already appended; with [cmip6_gmtm] bound (by an earlier run) the
    new rows are appended to the old ones, so that there are more rows than
    names. *)
Theorem rows_not_reset_without_first_match (h0 : D) (hs ssps : list D) :
  matches source_id h0 ssps = [] ->
  (forall p ps, matching_pairs source_id hs ssps = p :: ps ->
     load_models source_id gmt2m_of (h0 :: hs) ssps None =
       (([source_id p.2], None), NameError)) /\
  (forall stale,
     load_models source_id gmt2m_of (h0 :: hs) ssps (Some stale) =
       (((fun p => source_id p.2) <$> matching_pairs source_id hs ssps,
         Some (stale ++ ((fun p => gmt2m_of p.1 p.2)
                           <$> matching_pairs source_id hs ssps))), Loaded)).
Proof.
  intros Hm. split.
  - intros p ps Hp. unfold load_models. cbn [load_from].
    rewrite match_ssp_first, Hm. cbn [last fmap list_fmap app].
    rewrite load_from_unbound by lia. rewrite Hp. reflexivity.
  - intros stale. unfold load_models. cbn [load_from].
    rewrite match_ssp_first, Hm. cbn [last fmap list_fmap app].
    rewrite load_from_bound by lia. reflexivity.
Qed.

(** When the first historical dataset has several scenario datasets of its
    model, each of them adds a name but only the last one is kept as a row:
    there are fewer rows than names. *)
Theorem first_model_keeps_one_row (h0 : D) (hs ssps : list D)
    (prior : option (list R)) (s_last : D) :
  last (matches source_id h0 ssps) = Some s_last ->
  exists names rows,
    load_models source_id gmt2m_of (h0 :: hs) ssps prior
      = ((names, Some rows), Loaded) /\
    length names = length (matching_pairs source_id (h0 :: hs) ssps) /\
    length rows = 1 + length (matching_pairs source_id hs ssps) /\
    rows !! 0 = Some (gmt2m_of h0 s_last).
Proof.
  intros Hl. unfold load_models. cbn [load_from].
  rewrite match_ssp_first, Hl. cbn [app]. rewrite load_from_bound by lia.
  eexists _, _. split; [reflexivity|].
  rewrite matching_pairs_cons, !length_app, !length_fmap.
  split; [reflexivity|]. split; reflexivity.
Qed.
End loading.

Lemma names_and_rows_aligned_witness :
  load_models fst (fun h s : string * Z => (h.2 + s.2)%Z)
    [("ACCESS-CM2", 1%Z); ("NorESM2-LM", 2%Z)]
    [("NorESM2-LM", 20%Z); ("ACCESS-CM2", 10%Z)] None
  = ((["ACCESS-CM2"; "NorESM2-LM"], Some [11%Z; 22%Z]), Loaded).
Proof.
  exact (names_and_rows_aligned fst (fun h s : string * Z => (h.2 + s.2)%Z)
           ("ACCESS-CM2", 1%Z) ("ACCESS-CM2", 10%Z) [("NorESM2-LM", 2%Z)]
           [("NorESM2-LM", 20%Z); ("ACCESS-CM2", 10%Z)] None eq_refl).
Defined.

Lemma rows_not_reset_without_first_match_witness :
  load_models fst (fun h s : string * Z => (h.2 + s.2)%Z)
    [("CanESM5", 1%Z); ("NorESM2-LM", 2%Z)]
    [("NorESM2-LM", 20%Z)] None
  = ((["NorESM2-LM"], None), NameError).
Proof.
  exact (proj1 (rows_not_reset_without_first_match fst
                  (fun h s : string * Z => (h.2 + s.2)%Z)
                  ("CanESM5", 1%Z) [("NorESM2-LM", 2%Z)] [("NorESM2-LM", 20%Z)]
                  eq_refl)
           (("NorESM2-LM", 2%Z), ("NorESM2-LM", 20%Z)) [] eq_refl).
Defined.

Lemma first_model_keeps_one_row_witness :
  exists names rows,
    load_models fst (fun h s : string * Z => (h.2 + s.2)%Z)
      [("ACCESS-CM2", 1%Z)] [("ACCESS-CM2", 10%Z); ("ACCESS-CM2", 30%Z)] None
      = ((names, Some rows), Loaded) /\
    length names =
      length (matching_pairs fst [("ACCESS-CM2", 1%Z)]
                [("ACCESS-CM2", 10%Z); ("ACCESS-CM2", 30%Z)]) /\
    length rows = 1 + length (matching_pairs fst ([] : list (string * Z))
                                [("ACCESS-CM2", 10%Z); ("ACCESS-CM2", 30%Z)]) /\
    rows !! 0 = Some 31%Z.
Proof.
  exact (first_model_keeps_one_row fst (fun h s : string * Z => (h.2 + s.2)%Z)
           ("ACCESS-CM2", 1%Z) [] [("ACCESS-CM2", 10%Z); ("ACCESS-CM2", 30%Z)]
           None ("ACCESS-CM2", 30%Z) eq_refl).
Defined.
